(** * Entity-relation graph construction: a shallow embedding

    Embedding of [scripts/qa_QA_ner_graph.py] (undirected co-occurrence
    graph) and [scripts/relation_extraction_graph.py] (directed relation
    graph): the entity normalizer, the relation pattern table, the
    dependency-distance search and the two graph assemblers, with the
    properties stated about them.

    Conventions.
    - A Python [str] is a Rocq [string] whose characters are the code
      points below 256; [str.lower] and [str.strip] act on them as Python
      does on that range.
    - spaCy is an oracle: the parse of a text, the regular-expression
      matcher and the iteration order of a Python [set] are parameters.
    - A networkx graph is a node set and a finite map from ordered label
      pairs to the single edge attribute the scripts use. *)

From Stdlib Require Import Ascii String.
From stdpp Require Import gmap strings list fin_maps fin_sets sorting.

Local Open Scope string_scope.
Local Open Scope nat_scope.

(** ** Python strings *)

Module PyStr.

(** [str.isspace] on one character: TAB..CR, FS..US, space, NEL, NBSP. *)
Definition is_space (c : ascii) : bool :=
  let n := nat_of_ascii c in
  (((9 <=? n) && (n <=? 13)) || ((28 <=? n) && (n <=? 32))
   || (n =? 133) || (n =? 160))%nat.

(** [str.lower] on one character: A..Z and the accented capitals
    U+00C0..U+00DE (the multiplication sign U+00D7 apart) move up by 32. *)
Definition lower_char (c : ascii) : ascii :=
  let n := nat_of_ascii c in
  if (((65 <=? n) && (n <=? 90)) || ((192 <=? n) && (n <=? 214))
      || ((216 <=? n) && (n <=? 222)))%nat
  then ascii_of_nat (n + 32) else c.

Fixpoint lower (s : string) : string :=
  match s with
  | EmptyString => EmptyString
  | String c s' => String (lower_char c) (lower s')
  end.

Fixpoint lstrip (s : string) : string :=
  match s with
  | EmptyString => EmptyString
  | String c s' => if is_space c then lstrip s' else s
  end.

Fixpoint rstrip (s : string) : string :=
  match s with
  | EmptyString => EmptyString
  | String c s' =>
      match rstrip s' with
      | EmptyString => if is_space c then EmptyString else String c EmptyString
      | r => String c r
      end
  end.

(** [s.strip()] *)
Definition strip (s : string) : string := rstrip (lstrip s).

(** [s.startswith(p)] *)
Fixpoint startswith (s p : string) : bool :=
  match p, s with
  | EmptyString, _ => true
  | String a p', String b s' => if decide (a = b) then startswith s' p' else false
  | String _ _, EmptyString => false
  end.

(** [s[n:]] *)
Fixpoint slice_from (n : nat) (s : string) : string :=
  match n, s with
  | O, _ => s
  | S n', String _ s' => slice_from n' s'
  | S _, EmptyString => EmptyString
  end.

(** All characters of [s] are whitespace. *)
Fixpoint all_space (s : string) : bool :=
  match s with
  | EmptyString => true
  | String c s' => is_space c && all_space s'
  end.

Definition first_char (s : string) : option ascii :=
  match s with EmptyString => None | String c _ => Some c end.

Fixpoint last_char (s : string) : option ascii :=
  match s with
  | EmptyString => None
  | String c EmptyString => Some c
  | String _ s' => last_char s'
  end.

End PyStr.

(** ** Entity normalizer *)

Section Normalizer.

(** The process-wide [synonym_map] imported from
    [synonyms_terminology]: lower-case key to canonical label. *)
Variable synonym_map : gmap string string.

(** [normalize_entity(ent_text)], the same in both scripts. *)
Definition normalize_entity (ent_text : string) : string :=
  let ent_clean := PyStr.strip ent_text in
  let ent_clean :=
    if PyStr.startswith (PyStr.lower ent_clean) "the "
    then PyStr.slice_from 4 ent_clean
    else ent_clean in
  default ent_clean (synonym_map !! PyStr.lower ent_clean).

(** The normalizer as section 4.1 of the specification words it, for
    comparison with [normalize_entity]. *)

(** Case-insensitive equality of one character with a lower-case letter. *)
Definition ci_eq (c letter : ascii) : bool :=
  bool_decide (PyStr.lower_char c = letter).

(** Step (b): drop a leading article "the " (any letter case, followed by
    a space), once. *)
Definition strip_article (s : string) : string :=
  match s with
  | String a (String b (String c (String d rest))) =>
      if ci_eq a "t" && ci_eq b "h" && ci_eq c "e" && bool_decide (d = " "%char)
      then rest else s
  | _ => s
  end.

Definition normalize_spec (raw : string) : string :=
  let trimmed := PyStr.strip raw in
  let stripped := strip_article trimmed in
  match synonym_map !! PyStr.lower stripped with
  | Some canonical => canonical
  | None => stripped
  end.

End Normalizer.

(** The hand-written table [manual_synonyms] of [synonyms_terminology],
    the part of [synonym_map] that does not depend on the input document. *)
Definition manual_synonyms : gmap string string :=
  list_to_map
    [ ("Artificial Intelligence", "AI"); ("AI", "AI");
      ("Machine Learning", "ML"); ("ML", "ML");
      ("Natural Language Processing", "NLP"); ("NLP", "NLP");
      ("Customer Satisfaction", "CSAT"); ("CSAT", "CSAT");
      ("Customer Effort Score", "CES"); ("CES", "CES");
      ("Net Promoter Score", "NPS"); ("NPS", "NPS");
      ("Track NPS", "NPS");
      ("Internet of Things", "IoT"); ("IoT", "IoT");
      ("Structured Query Language", "SQL"); ("SQL", "SQL");
      ("us", "USA"); ("usa", "USA");
      ("the california consumer privacy act", "CPRA"); ("cpra", "CPRA");
      ("the european data protection board", "EDPB"); ("edpb", "EDPB") ].

(** ** Building the synonym map ([synonyms_terminology]) *)

Definition PREFER_ABBREVIATION : bool := true.

(** The two assignments both inner loops of [build_synonym_map] make for
    one pair: [synonym_map[full_form.lower()] = canonical], then
    [synonym_map[acronym.lower()] = canonical]. *)
Definition add_synonym (full_form acronym : string)
    (synonym_map : gmap string string) : gmap string string :=
  let canonical := if PREFER_ABBREVIATION then acronym else full_form in
  <[PyStr.lower acronym := canonical]>
    (<[PyStr.lower full_form := canonical]> synonym_map).

Section SynonymMap.

(** [re.findall] with the pattern for [Full form (ACRONYM)]: the pairs
    [(full_form, acronym)] of the matches in a text, from left to right. *)
Variable findall_full_acronym : string → list (string * string).

(** [re.findall] with the pattern for [ACRONYM (Full form)]: the pairs
    [(acronym, full_form)]. *)
Variable findall_acronym_full : string → list (string * string).

(** The body of [for para in doc.paragraphs], from the text of the
    paragraph. *)
Definition synonym_paragraph (synonym_map : gmap string string)
    (para_text : string) : gmap string string :=
  let text := PyStr.strip para_text in
  if decide (text = "") then synonym_map
  else
    let synonym_map :=
      foldl (λ m '(full_form, acronym), add_synonym full_form acronym m)
            synonym_map (findall_full_acronym text) in
    foldl (λ m '(acronym, full_form), add_synonym full_form acronym m)
          synonym_map (findall_acronym_full text).

(** [build_synonym_map(doc)], from the texts of the paragraphs of the
    document; [get_synonym_map] returns it for the input file, and the two
    graph scripts import the result as [synonym_map]. *)
Definition build_synonym_map (texts : list string) : gmap string string :=
  foldl synonym_paragraph manual_synonyms texts.

(** The pairs the two patterns find in the paragraphs that are not empty,
    each as [(full_form, acronym)], in the order the loops meet them. *)
Definition synonym_pairs (texts : list string) : list (string * string) :=
  texts ≫= λ para_text,
    let text := PyStr.strip para_text in
    if decide (text = "") then []
    else (findall_full_acronym text
          ++ (prod_swap <$> findall_acronym_full text))%list.

End SynonymMap.

(** A pair of [build_synonym_map] writes under the key [k]. *)
Definition writes_key (k : string) (pair : string * string) : Prop :=
  k = PyStr.lower pair.1 ∨ k = PyStr.lower pair.2.

(** The writes of a list of pairs [(full_form, acronym)], in order. *)
Definition add_pairs (m : gmap string string) (l : list (string * string))
    : gmap string string :=
  foldl (λ m pair, add_synonym pair.1 pair.2 m) m l.

(** ** spaCy objects

    Only the attributes the scripts read are kept. A [Doc] object has an
    identity: spans and tokens of two [Doc] objects never compare equal,
    even when both come from the same text. *)

(** One token of a dependency parse: its lemma, the index of its head (its
    own index at the root of a sentence) and the indices of its children. *)
Record TokenRow := { lemma_ : string; head : nat; children : list nat }.

(** What a token sees of its document: the identity of the [Doc] object and
    the rows of the parse. *)
Record Parse := { parse_id : nat; parse_rows : list TokenRow }.

(** [Token]: the document ([token.doc]) and the index in it ([token.i]). *)
Record Token := { tok_doc : Parse; tok_i : nat }.

(** The value of [span.sent] as far as [==] looks at it: the document and
    the bounds of the sentence. *)
Record SentRef := { sent_doc : nat; sent_start : nat; sent_end : nat }.

(** An entity [Span]: [ent.text], [ent.label_], [ent.sent], [ent.root]. *)
Record Span := { text : string; label_ : string; sent : SentRef; root : Token }.

(** A sentence of [doc.sents]: its tokens in order and [sent.ents]. *)
Record Sentence :=
  { sent_ref : SentRef; sent_tokens : list Token; sent_ents : list Span }.

(** [Doc]: [doc.ents] and [doc.sents]. *)
Record Doc := { ents : list Span; sents : list Sentence }.

#[global] Instance TokenRow_eq_dec : EqDecision TokenRow.
Proof. solve_decision. Defined.
#[global] Instance Parse_eq_dec : EqDecision Parse.
Proof. solve_decision. Defined.
#[global] Instance Token_eq_dec : EqDecision Token.
Proof. solve_decision. Defined.
#[global] Instance SentRef_eq_dec : EqDecision SentRef.
Proof. solve_decision. Defined.
#[global] Instance Span_eq_dec : EqDecision Span.
Proof. solve_decision. Defined.

Definition token_at (d : Parse) (i : nat) : Token := {| tok_doc := d; tok_i := i |}.

(** [token.lemma_] *)
Definition tok_lemma (token : Token) : string :=
  match parse_rows (tok_doc token) !! tok_i token with
  | Some row => lemma_ row
  | None => ""
  end.

(** ** Dependency distance *)

Definition MAX_DEP_DISTANCE : nat := 3.

(** [list(node.children) + ([node.head] if node.head != node else [])] *)
Definition neighbors (node : Token) : list Token :=
  match parse_rows (tok_doc node) !! tok_i node with
  | Some row =>
      (token_at (tok_doc node) <$> children row)
      ++ (if decide (token_at (tok_doc node) (head row) = node) then []
          else [token_at (tok_doc node) (head row)])
  | None => []
  end.

(** The neighbours the inner [for] loop appends: those not in [visited]. *)
Definition unvisited (visited : list Token) (node : Token) : list Token :=
  filter (λ n, n ∉ visited) (neighbors node).

(** The [while queue:] loop of [dependency_distance]. [Some r] is the value
    the loop returns ([r = None] for Python's [None]); the outer [None]
    says that [fuel] iterations were not enough. *)
Fixpoint bfs (fuel : nat) (queue : list (Token * nat)) (visited : list Token)
    (token2 : Token) : option (option nat) :=
  match queue with
  | [] => Some None
  | (node, dist) :: queue =>
      match fuel with
      | O => None
      | S fuel =>
          if decide (node = token2) then Some (Some dist)
          else
            let visited := node :: visited in
            bfs fuel (queue ++ ((λ n, (n, S dist)) <$> unvisited visited node))
              visited token2
      end
  end.

(** The number of queue entries of a search from [node] that finds nothing:
    [node] itself and, for each neighbour appended when [node] is popped,
    the entries of the search from there. [depth] bounds the length of the
    chains followed. *)
Fixpoint expansions (depth : nat) (visited : list Token) (node : Token) : nat :=
  match depth with
  | O => 1
  | S depth =>
      let visited := node :: visited in
      S (sum_list_with (expansions depth visited) (unvisited visited node))
  end.

Definition bfs_fuel (token1 : Token) : nat :=
  expansions (2 + length (parse_rows (tok_doc token1))) [] token1.

(** [dependency_distance(token1, token2)]. The loop ends on every parse
    (theorem [bfs_fuel_enough]), so the last branch is never taken. *)
Definition dependency_distance (token1 token2 : Token) : option nat :=
  match bfs (bfs_fuel token1) [(token1, 0)] [] token2 with
  | Some r => r
  | None => None
  end.

(** ** Relation classifier *)

(** [RELATION_PATTERNS], in declaration order. *)
Definition RELATION_PATTERNS : list (string * gset string) :=
  [ ("is_a", list_to_set ["be"; "is"; "are"; "was"; "were"; "constitute"; "represent"]);
    ("regulates", list_to_set ["regulate"; "govern"; "control"; "oversee"; "enforce"; "dictate"; "manage"]);
    ("uses", list_to_set ["use"; "utilize"; "apply"; "employ"; "leverage"]);
    ("based_on", list_to_set ["base"; "build"; "derive"; "depend"; "develop"]);
    ("part_of", list_to_set ["part"; "component"; "element"; "segment"; "member"; "belong"]) ].

(** The labels for which the inner loop over [patterns.items()] enters its
    [if token.lemma_.lower() in verbs] branch, in order. *)
Definition matching_labels (patterns : list (string * gset string))
    (lemma : string) : list string :=
  '(rel_label, verbs) ← patterns;
  if decide (PyStr.lower lemma ∈ verbs) then [rel_label] else [].

(** The classifier as section 4.2 of the specification words it: the first
    kind, in declaration order, whose trigger set holds the lemma. *)
Fixpoint classify_first (patterns : list (string * gset string))
    (lemma : string) : option string :=
  match patterns with
  | [] => None
  | (rel_label, verbs) :: rest =>
      if decide (PyStr.lower lemma ∈ verbs) then Some rel_label
      else classify_first rest lemma
  end.

(** [itertools.combinations(l, 2)] *)
Fixpoint combinations2 {A} (l : list A) : list (A * A) :=
  match l with
  | [] => []
  | x :: l' => (pair x <$> l') ++ combinations2 l'
  end.

(** [dist is not None and dist <= MAX_DEP_DISTANCE] *)
Definition within_max (dist : option nat) : bool :=
  match dist with
  | Some d => bool_decide (d ≤ MAX_DEP_DISTANCE)
  | None => false
  end.

(** The triples one token appends under one table. *)
Definition token_relations (patterns : list (string * gset string))
    (ents_in_sent : list Span) (token : Token) : list (string * string * string) :=
  '(rel_label, verbs) ← patterns;
  if decide (PyStr.lower (tok_lemma token) ∈ verbs) then
    '(e1, e2) ← combinations2 ents_in_sent;
    if within_max (dependency_distance (root e1) (root e2))
    then [(text e1, rel_label, text e2)] else []
  else [].

(** [extract_relations_in_sentence(sent)] *)
Definition extract_relations_in_sentence (sent : Sentence)
    : list (string * string * string) :=
  let ents_in_sent := sent_ents sent in
  if decide (length ents_in_sent < 2) then []
  else token ← sent_tokens sent; token_relations RELATION_PATTERNS ents_in_sent token.

(** ** networkx graphs

    [nodes] is the key set of [G.nodes]; [adj !! (u, v)] is the attribute
    of the edge stored at [G.adj[u][v]] ([title] in the undirected script,
    [label] in the directed one). *)

Record Graph (A : Type) := { nodes : gset string; adj : gmap (string * string) A }.
Arguments nodes {A} _.
Arguments adj {A} _.

Definition empty_graph {A} : Graph A := {| nodes := ∅; adj := ∅ |}.

(** [G.add_node(n)] *)
Definition add_node {A} (n : string) (G : Graph A) : Graph A :=
  {| nodes := {[n]} ∪ nodes G; adj := adj G |}.

(** [nx.Graph.add_edge(u, v, attr)]: both end points become nodes, the
    attribute is written at [adj[u][v]] and [adj[v][u]], replacing what was
    there. *)
Definition Graph_add_edge {A} (u v : string) (a : A) (G : Graph A) : Graph A :=
  {| nodes := {[u; v]} ∪ nodes G;
     adj := <[(v, u) := a]> (<[(u, v) := a]> (adj G)) |}.

(** [nx.DiGraph.add_edge(u, v, attr)]: as above for the one ordered pair. *)
Definition DiGraph_add_edge {A} (u v : string) (a : A) (G : Graph A) : Graph A :=
  {| nodes := {[u; v]} ∪ nodes G; adj := <[(u, v) := a]> (adj G) |}.

(** [G.has_edge(u, v)] *)
Definition has_edge {A} (G : Graph A) (u v : string) : bool :=
  bool_decide (is_Some (adj G !! (u, v))).

(** The [title] of an edge of the undirected graph: the two format strings
    ["Strong: Dep-path <=MAX in Qidx"] and ["Weak: Co-occurs in Qidx"]. *)
Inductive Title :=
  | Strong (max_dist idx : nat)
  | Weak (idx : nat).

#[global] Instance Title_eq_dec : EqDecision Title.
Proof. solve_decision. Defined.

(** ** Python dictionaries, in insertion order *)

(** [d[k] = v]: the value of an existing key is replaced where the key
    stands, a new key goes to the end. *)
Fixpoint dict_setitem {V} (k : string) (v : V) (d : list (string * V))
    : list (string * V) :=
  match d with
  | [] => [(k, v)]
  | (k', v') :: d' =>
      if decide (k = k') then (k', v) :: d' else (k', v') :: dict_setitem k v d'
  end.

(** [list({ent.text.strip(): ent for ent in ents}.values())] *)
Definition dedupe_by_text (ents : list Span) : list Span :=
  (foldl (λ d ent, dict_setitem (PyStr.strip (text ent)) ent d) [] ents).*2.

(** The pairs [(i, j)] of [for i in range(n): for j in range(i + 1, n)]. *)
Definition index_pairs (n : nat) : list (nat * nat) :=
  i ← seq 0 n; j ← seq (S i) (n - S i); [(i, j)].

(** ** The graph assemblers *)

(** The loop state: the graph, [all_entities] and the number of [nlp]
    calls made. *)
Definition build_state (A : Type) : Type := Graph A * gset string * nat.

(** The components of the loop state. *)
Definition graph_of {A} (st : build_state A) : Graph A := st.1.1.
Definition entities_of {A} (st : build_state A) : gset string := st.1.2.
Definition calls_of {A} (st : build_state A) : nat := st.2.

(** The state before the first unit. *)
Definition initial_state {A} : build_state A := (empty_graph, ∅, 0).

(** [f"{q} {a}"] *)
Definition text_block_of (qa : string * string) : string := qa.1 ++ " " ++ qa.2.

Section Assembler.

Variable synonym_map : gmap string string.

(** [nlp n text]: the [Doc] that the [n]-th call of [nlp] returns on
    [text]. Numbering the calls lets every call build an object of its
    own. *)
Variable nlp : nat → string → Doc.

(** [custom_pattern.findall]: the whole-word, case-insensitive matches of
    the technology terms in a text. *)
Variable findall : string → list string.

(** [list(s)] for the Python set built by adding the given spans in
    order: duplicates merged, in the set's own order. *)
Variable list_of_set : list Span → list Span.

Definition ALLOWED_LABELS : list string :=
  ["ORG"; "PRODUCT"; "GPE"; "LAW"; "EVENT"; "TECHNOLOGY"].

(** [extract_entities(text)], started when [calls] calls of [nlp] have
    been made; returns the entities and the new number of calls. *)
Definition extract_entities (calls : nat) (text_block : string)
    : list Span * nat :=
  let doc := nlp calls text_block in
  let allowed := filter (λ ent, label_ ent ∈ ALLOWED_LABELS) (ents doc) in
  let '(added, calls) :=
    foldl (λ (st : list Span * nat) match_,
             let match_doc := nlp st.2 (PyStr.strip match_) in
             (match ents match_doc with
              | first :: _ => (st.1 ++ [first])%list
              | [] => st.1
              end, S st.2))
          (allowed, S calls) (findall text_block) in
  (list_of_set added, calls).

Local Abbreviation normalize := (normalize_entity synonym_map).

(** *** Undirected co-occurrence graph ([qa_QA_ner_graph]) *)

(** The body of the double loop at [(i, j)]. *)
Definition cooccurrence_step (idx : nat) (ents : list Span)
    (ents_norm : list string) (G : Graph Title) (ij : nat * nat) : Graph Title :=
  match ents !! ij.1, ents !! ij.2, ents_norm !! ij.1, ents_norm !! ij.2 with
  | Some ei, Some ej, Some ni, Some nj =>
      if decide (sent ei = sent ej) then
        if within_max (dependency_distance (root ei) (root ej))
        then Graph_add_edge ni nj (Strong MAX_DEP_DISTANCE idx) G
        else G
      else Graph_add_edge ni nj (Weak idx) G
  | _, _, _, _ => G
  end.

(** The deduplicated entities of one unit and their normal forms. *)
Definition unit_entities (calls : nat) (text_block : string)
    : list Span * list string * nat :=
  let '(found, calls) := extract_entities calls text_block in
  let ents := dedupe_by_text found in
  (ents, (λ ent, normalize (text ent)) <$> ents, calls).

(** One iteration of [for idx, (q, a) in enumerate(qa_list, start=1)]. The
    script parses the text once more ([doc = nlp(...)]) and does not use the
    result; the call still counts. *)
Definition build_graph_unit (st : build_state Title) (idx : nat)
    (qa : string * string) : build_state Title :=
  let '(G, all_entities, calls) := st in
  let text_block := text_block_of qa in
  let calls := S calls in
  let '(ents, ents_norm, calls) := unit_entities calls text_block in
  let all_entities := foldl (λ acc ent, {[ent]} ∪ acc) all_entities ents_norm in
  let G := foldl (cooccurrence_step idx ents ents_norm) G
             (index_pairs (length ents_norm)) in
  (G, all_entities, calls).

(** [enumerate(qa_list, start)] consumed by a loop body [f]. *)
Fixpoint for_enumerate {St} (f : St → nat → string * string → St) (st : St)
    (start : nat) (qa_list : list (string * string)) : St :=
  match qa_list with
  | [] => st
  | qa :: rest => for_enumerate f (f st start qa) (S start) rest
  end.

(** [for entity in all_entities: if entity not in G.nodes(): G.add_node(entity)] *)
Definition add_missing_nodes {A} (all_entities : gset string) (G : Graph A)
    : Graph A :=
  set_fold (λ entity G, if decide (entity ∈ nodes G) then G else add_node entity G)
    G all_entities.

(** [build_graph(qa_list)] up to the graph [G] handed to the colouring
    and to the export. *)
Definition build_graph (qa_list : list (string * string)) : Graph Title :=
  let '(G, all_entities, _) :=
    for_enumerate build_graph_unit initial_state 1 qa_list in
  add_missing_nodes all_entities G.

(** *** Directed relation graph ([relation_extraction_graph]) *)

(** [G.add_edge(normalize_entity(e1), normalize_entity(e2), label=rel)] *)
Definition add_relation (G : Graph string) (triple : string * string * string)
    : Graph string :=
  let '(e1, rel, e2) := triple in
  DiGraph_add_edge (normalize e1) (normalize e2) rel G.

(** [for sent in doc.sents: for e1, rel, e2 in
    extract_relations_in_sentence(sent): G.add_edge(...)] *)
Definition relation_pass (doc : Doc) (G : Graph string) : Graph string :=
  foldl (λ G sent, foldl add_relation G (extract_relations_in_sentence sent))
        G (sents doc).

(** The body of the weak-edge double loop at [(i, j)]. *)
Definition weak_step (ents_all : list Span) (ents_norm : list string)
    (G : Graph string) (ij : nat * nat) : Graph string :=
  match ents_all !! ij.1, ents_all !! ij.2, ents_norm !! ij.1, ents_norm !! ij.2 with
  | Some ei, Some ej, Some ni, Some nj =>
      if decide (sent ei ≠ sent ej) then
        if has_edge G ni nj then G
        else DiGraph_add_edge ni nj "co_occurs" G
      else G
  | _, _, _, _ => G
  end.

(** The whole weak-edge pass of one unit. *)
Definition weak_pass (ents_all : list Span) (ents_norm : list string)
    (G : Graph string) : Graph string :=
  foldl (weak_step ents_all ents_norm) G (index_pairs (length ents_norm)).

Definition build_relations_unit (st : build_state string) (idx : nat)
    (qa : string * string) : build_state string :=
  let '(G, all_entities, calls) := st in
  let text_block := text_block_of qa in
  let doc := nlp calls text_block in
  let calls := S calls in
  let '(ents_all, ents_norm, calls) := unit_entities calls text_block in
  let all_entities := foldl (λ acc ent, {[ent]} ∪ acc) all_entities ents_norm in
  let G := relation_pass doc G in
  let G := weak_pass ents_all ents_norm G in
  (G, all_entities, calls).

(** [build_graph_with_relations(qa_list)] up to the graph [G]. *)
Definition build_graph_with_relations (qa_list : list (string * string))
    : Graph string :=
  let '(G, all_entities, _) :=
    for_enumerate build_relations_unit initial_state 1 qa_list in
  add_missing_nodes all_entities G.

End Assembler.

(** ** Loading the question and answer pairs *)

(** [text.lower().startswith("q:") or text.lower().startswith("question")] *)
Definition is_question (text : string) : bool :=
  PyStr.startswith (PyStr.lower text) "q:"
  || PyStr.startswith (PyStr.lower text) "question".

(** [text.lower().startswith("a:") or text.lower().startswith("answer")] *)
Definition is_answer (text : string) : bool :=
  PyStr.startswith (PyStr.lower text) "a:"
  || PyStr.startswith (PyStr.lower text) "answer".

(** [[p.text.strip() for p in doc.paragraphs if p.text.strip()]], from the
    texts of the paragraphs of the document. *)
Definition stripped_paragraphs (texts : list string) : list string :=
  PyStr.strip <$> filter (λ t, PyStr.strip t ≠ "") texts.

(** The variables of the labelled loop. *)
Record label_state :=
  { current_q : option string; current_a : option string;
    qa_pairs : list (string * string) }.

(** The body of [for text in paras] when the paragraphs carry labels;
    [if current_q] holds for a string that is not empty. *)
Definition labelled_step (st : label_state) (text : string) : label_state :=
  if is_question text then
    {| current_q := Some text; current_a := current_a st; qa_pairs := qa_pairs st |}
  else if is_answer text then
    match current_q st with
    | Some q =>
        if decide (q ≠ "") then
          {| current_q := None; current_a := None;
             qa_pairs := (qa_pairs st ++ [(q, text)])%list |}
        else
          {| current_q := current_q st; current_a := Some text;
             qa_pairs := qa_pairs st |}
    | None =>
        {| current_q := None; current_a := Some text; qa_pairs := qa_pairs st |}
    end
  else st.

(** [range(0, n, 2)] *)
Definition range_by_two (n : nat) : list nat :=
  (λ k, 2 * k) <$> seq 0 (Nat.div2 (S n)).

(** The body of [for i in range(0, len(paras), 2)]. *)
Definition pair_up_step (paras : list string) (acc : list (string * string))
    (i : nat) : list (string * string) :=
  if decide (i + 1 < length paras) then
    match paras !! i, paras !! (i + 1) with
    | Some q, Some a => (acc ++ [(q, a)])%list
    | _, _ => acc
    end
  else acc.

(** The loop over [range(0, len(paras), 2)] when no paragraph is labelled
    as a question. *)
Definition pair_up (paras : list string) : list (string * string) :=
  foldl (pair_up_step paras) [] (range_by_two (length paras)).

(** [load_qa_from_docx], from the texts of the paragraphs of the file. *)
Definition load_qa_from_docx (texts : list string) : list (string * string) :=
  let paras := stripped_paragraphs texts in
  let has_labels := existsb is_question paras in
  if has_labels then
    qa_pairs (foldl labelled_step
                {| current_q := None; current_a := None; qa_pairs := [] |} paras)
  else pair_up paras.

(** A paragraph without a label. *)
Definition unlabelled (text : string) : Prop :=
  is_question text = false ∧ is_answer text = false.

(** ** Notions used in the statements *)

(** The trigger sets of a pattern table are pairwise disjoint. *)
Fixpoint table_disjoint (patterns : list (string * gset string)) : Prop :=
  match patterns with
  | [] => True
  | (_, verbs) :: rest =>
      Forall (λ entry : string * gset string, verbs ## entry.2) rest
      ∧ table_disjoint rest
  end.

(** The dictionary key of a mention: [ent.text.strip()]. *)
Definition text_key (ent : Span) : string := PyStr.strip (text ent).

(** The distinct elements of a list, each where it occurs first. *)
Definition first_occurrences (l : list string) : list string :=
  foldl (λ acc k, if decide (k ∈ acc) then acc else acc ++ [k])%list [] l.

(** [walk_avoiding visited n m d]: [d] steps, each to a neighbour that is
    not in [visited], lead from [n] to [m]. *)
Inductive walk_avoiding (visited : list Token) : Token → Token → nat → Prop :=
  | walk_here n : walk_avoiding visited n n 0
  | walk_step n n' m d :
      n' ∈ neighbors n → n' ∉ visited → walk_avoiding visited n' m d →
      walk_avoiding visited n m (S d).

(** [walk n m d]: a chain of [d] child or head links leads from [n] to [m]. *)
Definition walk : Token → Token → nat → Prop := walk_avoiding [].

(** The distances in the queue grow, by one at most over the whole queue. *)
Definition queue_sorted (queue : list (Token * nat)) : Prop :=
  StronglySorted (λ e1 e2 : Token * nat, e1.2 ≤ e2.2 ≤ S e1.2) queue.

(** A key the normalizer can ever look up: lower-case, and without
    whitespace at its end. *)
Definition usable_key (k : string) : Prop :=
  PyStr.lower k = k ∧ PyStr.rstrip k = k.

#[global] Instance usable_key_dec (k : string) : Decision (usable_key k).
Proof. unfold usable_key. apply _. Defined.

(** The entries of a synonym map under usable keys. *)
Definition usable_entries (m : gmap string string) : gmap string string :=
  filter (λ entry : string * string, usable_key entry.1) m.

(** The unit index written into a title. *)
Definition title_idx (t : Title) : nat :=
  match t with Strong _ idx => idx | Weak idx => idx end.

(** What justifies the title [t] between the labels [u] and [v] in the unit
    numbered [idx]: two mentions of the unit with these labels that lie in
    different sentences, for a weak title, or in one sentence at a distance
    of at most [MAX_DEP_DISTANCE], for a strong one. *)
Definition justified (ents_list : list Span) (ents_norm : list string)
    (idx : nat) (u v : string) (t : Title) : Prop :=
  ∃ i j ei ej ni nj,
    i < j
    ∧ ents_list !! i = Some ei ∧ ents_list !! j = Some ej
    ∧ ents_norm !! i = Some ni ∧ ents_norm !! j = Some nj
    ∧ ((u, v) = (ni, nj) ∨ (u, v) = (nj, ni))
    ∧ (sent ei ≠ sent ej ∧ t = Weak idx
       ∨ sent ei = sent ej ∧ t = Strong MAX_DEP_DISTANCE idx
         ∧ ∃ d, dependency_distance (root ei) (root ej) = Some d
                ∧ d ≤ MAX_DEP_DISTANCE).

(** The labels an edge of the directed graph can carry. *)
Definition EDGE_LABELS : list string := RELATION_PATTERNS.*1 ++ ["co_occurs"].

(** The triples of all the sentences of a document, in the order in which
    the sentence pass meets them. *)
Definition sentence_triples (doc : Doc) : list (string * string * string) :=
  sents doc ≫= extract_relations_in_sentence.

(** ** Scenarios *)

Module Scenario.

Definition row (l : string) (h : nat) (c : list nat) : TokenRow :=
  {| lemma_ := l; head := h; children := c |}.

Definition sref (n first last : nat) : SentRef :=
  {| sent_doc := n; sent_start := first; sent_end := last |}.

Definition empty_doc : Doc := {| ents := []; sents := [] |}.

(** An [nlp] that knows one text: the call numbered [n] returns the parse
    [doc_of n] on [block]. *)
Definition nlp_for (block : string) (doc_of : nat → Doc) : nat → string → Doc :=
  λ n text_block, if decide (text_block = block) then doc_of n else empty_doc.

(** None of the technology terms occurs in the texts below. *)
Definition no_terms : string → list string := λ _, [].

(** One iteration order of a set: duplicates merged, insertion order kept. *)
Definition set_order : list Span → list Span := remove_dups.

(** Another one: the same elements the other way round. *)
Definition set_order_rev : list Span → list Span := λ l, reverse (remove_dups l).

(** *** Suppliers: five entities, three sentences *)

Definition suppliers_unit : string * string :=
  ("Who supplies parts?",
   "Siemens of Munich supplies Bosch in Stuttgart. Nokia grows.").

Definition suppliers_parse (n : nat) : Parse :=
  {| parse_id := n;
     parse_rows :=
       [ row "who" 1 []; row "supply" 1 [0; 2; 3]; row "part" 1 []; row "?" 1 [];
         row "Siemens" 7 [5]; row "of" 4 [6]; row "Munich" 5 [];
         row "supply" 7 [4; 8; 9; 11]; row "Bosch" 7 []; row "in" 7 [10];
         row "Stuttgart" 9 []; row "." 7 [];
         row "Nokia" 13 []; row "grow" 13 [12; 14]; row "." 13 [] ] |}.

Definition siemens (n : nat) : Span :=
  {| text := "Siemens"; label_ := "ORG"; sent := sref n 20 66;
     root := token_at (suppliers_parse n) 4 |}.
Definition munich (n : nat) : Span :=
  {| text := "Munich"; label_ := "GPE"; sent := sref n 20 66;
     root := token_at (suppliers_parse n) 6 |}.
Definition bosch (n : nat) : Span :=
  {| text := "Bosch"; label_ := "ORG"; sent := sref n 20 66;
     root := token_at (suppliers_parse n) 8 |}.
Definition stuttgart (n : nat) : Span :=
  {| text := "Stuttgart"; label_ := "GPE"; sent := sref n 20 66;
     root := token_at (suppliers_parse n) 10 |}.
Definition nokia (n : nat) : Span :=
  {| text := "Nokia"; label_ := "ORG"; sent := sref n 67 79;
     root := token_at (suppliers_parse n) 12 |}.

Definition suppliers_doc (n : nat) : Doc :=
  {| ents := [siemens n; munich n; bosch n; stuttgart n; nokia n];
     sents :=
       [ {| sent_ref := sref n 0 19;
            sent_tokens := token_at (suppliers_parse n) <$> seq 0 4;
            sent_ents := [] |};
         {| sent_ref := sref n 20 66;
            sent_tokens := token_at (suppliers_parse n) <$> seq 4 8;
            sent_ents := [siemens n; munich n; bosch n; stuttgart n] |};
         {| sent_ref := sref n 67 79;
            sent_tokens := token_at (suppliers_parse n) <$> seq 12 3;
            sent_ents := [nokia n] |} ] |}.

Definition suppliers_nlp : nat → string → Doc :=
  nlp_for (text_block_of suppliers_unit) suppliers_doc.

(** *** Users: a verb-derived edge and a later mention of its target *)

Definition users_unit : string * string :=
  ("What is used?", "Siemens uses Bosch. Bosch grows.").

Definition users_parse (n : nat) : Parse :=
  {| parse_id := n;
     parse_rows :=
       [ row "what" 2 []; row "be" 2 []; row "use" 2 [0; 1; 3]; row "?" 2 [];
         row "Siemens" 5 []; row "use" 5 [4; 6; 7]; row "Bosch" 5 []; row "." 5 [];
         row "Bosch" 9 []; row "grow" 9 [8; 10]; row "." 9 [] ] |}.

Definition user (n : nat) : Span :=
  {| text := "Siemens"; label_ := "ORG"; sent := sref n 14 33;
     root := token_at (users_parse n) 4 |}.
Definition used (n : nat) : Span :=
  {| text := "Bosch"; label_ := "ORG"; sent := sref n 14 33;
     root := token_at (users_parse n) 6 |}.
Definition used_again (n : nat) : Span :=
  {| text := "Bosch"; label_ := "ORG"; sent := sref n 34 46;
     root := token_at (users_parse n) 8 |}.

Definition users_doc (n : nat) : Doc :=
  {| ents := [user n; used n; used_again n];
     sents :=
       [ {| sent_ref := sref n 0 13;
            sent_tokens := token_at (users_parse n) <$> seq 0 4;
            sent_ents := [] |};
         {| sent_ref := sref n 14 33;
            sent_tokens := token_at (users_parse n) <$> seq 4 4;
            sent_ents := [user n; used n] |};
         {| sent_ref := sref n 34 46;
            sent_tokens := token_at (users_parse n) <$> seq 8 3;
            sent_ents := [used_again n] |} ] |}.

Definition users_nlp : nat → string → Doc :=
  nlp_for (text_block_of users_unit) users_doc.

(** *** People: two entities outside the allow-list *)

Definition people_unit : string * string :=
  ("Who is in charge?", "Alice regulates Bob.").

Definition people_parse (n : nat) : Parse :=
  {| parse_id := n;
     parse_rows :=
       [ row "who" 1 []; row "be" 1 [0; 2; 4]; row "in" 1 [3]; row "charge" 2 [];
         row "?" 1 [];
         row "Alice" 6 []; row "regulate" 6 [5; 7; 8]; row "Bob" 6 []; row "." 6 [] ] |}.

Definition alice (n : nat) : Span :=
  {| text := "Alice"; label_ := "PERSON"; sent := sref n 18 38;
     root := token_at (people_parse n) 5 |}.
Definition bob (n : nat) : Span :=
  {| text := "Bob"; label_ := "PERSON"; sent := sref n 18 38;
     root := token_at (people_parse n) 7 |}.

Definition people_doc (n : nat) : Doc :=
  {| ents := [alice n; bob n];
     sents :=
       [ {| sent_ref := sref n 0 17;
            sent_tokens := token_at (people_parse n) <$> seq 0 5;
            sent_ents := [] |};
         {| sent_ref := sref n 18 38;
            sent_tokens := token_at (people_parse n) <$> seq 5 4;
            sent_ents := [alice n; bob n] |} ] |}.

Definition people_nlp : nat → string → Doc :=
  nlp_for (text_block_of people_unit) people_doc.

(** *** Country: a short form and a long form of one canonical label *)

Definition country_unit : string * string :=
  ("Is the US large?", "The USA is large.").

Definition country_parse (n : nat) : Parse :=
  {| parse_id := n;
     parse_rows :=
       [ row "be" 0 [2; 3; 4]; row "the" 2 []; row "US" 0 [1]; row "large" 0 [];
         row "?" 0 [];
         row "the" 6 []; row "USA" 7 [5]; row "be" 7 [6; 8; 9]; row "large" 7 [];
         row "." 7 [] ] |}.

Definition us (n : nat) : Span :=
  {| text := "US"; label_ := "GPE"; sent := sref n 0 16;
     root := token_at (country_parse n) 2 |}.
Definition usa (n : nat) : Span :=
  {| text := "USA"; label_ := "GPE"; sent := sref n 17 34;
     root := token_at (country_parse n) 6 |}.

Definition country_doc (n : nat) : Doc :=
  {| ents := [us n; usa n];
     sents :=
       [ {| sent_ref := sref n 0 16;
            sent_tokens := token_at (country_parse n) <$> seq 0 5;
            sent_ents := [us n] |};
         {| sent_ref := sref n 17 34;
            sent_tokens := token_at (country_parse n) <$> seq 5 5;
            sent_ents := [usa n] |} ] |}.

Definition country_nlp : nat → string → Doc :=
  nlp_for (text_block_of country_unit) country_doc.

(** *** Terms: an entity found through the technology pattern only *)

Definition terms_unit : string * string :=
  ("What is AI?", "AI is a field of study.").

(** The technology pattern matches [AI] twice in the text of the unit. *)
Definition terms_findall : string → list string :=
  λ text_block,
    if decide (text_block = text_block_of terms_unit) then ["AI"; "AI"] else [].

Definition terms_parse (n : nat) : Parse :=
  {| parse_id := n; parse_rows := [row "AI" 0 []] |}.

Definition terms_ai (n : nat) : Span :=
  {| text := "AI"; label_ := "PERSON"; sent := sref n 0 2;
     root := token_at (terms_parse n) 0 |}.

(** The parser finds no entity in the text of the unit, and one in the
    matched term taken alone. *)
Definition terms_nlp : nat → string → Doc :=
  nlp_for "AI"
    (λ n, {| ents := [terms_ai n];
             sents := [ {| sent_ref := sref n 0 2;
                           sent_tokens := [token_at (terms_parse n) 0];
                           sent_ents := [terms_ai n] |} ] |}).

(** *** Acronyms: a document that defines one acronym twice *)

Definition acronyms_texts : list string :=
  [ "The General Data Protection Regulation (GDPR) applies."; "  ";
    "See GDPR (General Data Protection Regulation)." ].

(** The matches of the pattern for [Full form (ACRONYM)]; the full form
    runs from the first capital up to the bracket. *)
Definition acronyms_full_acronym : string → list (string * string) :=
  λ text,
    if decide (text = "The General Data Protection Regulation (GDPR) applies.")
    then [("The General Data Protection Regulation ", "GDPR")]
    else [].

(** The matches of the pattern for [ACRONYM (Full form)]. *)
Definition acronyms_acronym_full : string → list (string * string) :=
  λ text,
    if decide (text = "See GDPR (General Data Protection Regulation).")
    then [("GDPR", "General Data Protection Regulation")]
    else [].

(** *** Offices: one place named three times in a sentence *)

Definition offices_unit : string * string :=
  ("What happened?",
   "Officials in Stuttgart report that Siemens moves to Stuttgart after talks in Stuttgart.").

Definition offices_parse (n : nat) : Parse :=
  {| parse_id := n;
     parse_rows :=
       [ row "what" 1 []; row "happen" 1 [0; 2]; row "?" 1 [];
         row "official" 6 [4]; row "in" 3 [5]; row "Stuttgart" 4 [];
         row "report" 6 [3; 9; 16]; row "that" 9 []; row "Siemens" 9 [];
         row "move" 6 [7; 8; 10; 12]; row "to" 9 [11]; row "Stuttgart" 10 [];
         row "after" 9 [13]; row "talk" 12 [14]; row "in" 13 [15];
         row "Stuttgart" 14 []; row "." 6 [] ] |}.

Definition offices_stuttgart_first (n : nat) : Span :=
  {| text := "Stuttgart"; label_ := "GPE"; sent := sref n 15 102;
     root := token_at (offices_parse n) 5 |}.
Definition offices_siemens (n : nat) : Span :=
  {| text := "Siemens"; label_ := "ORG"; sent := sref n 15 102;
     root := token_at (offices_parse n) 8 |}.
Definition offices_stuttgart_near (n : nat) : Span :=
  {| text := "Stuttgart"; label_ := "GPE"; sent := sref n 15 102;
     root := token_at (offices_parse n) 11 |}.
Definition offices_stuttgart_last (n : nat) : Span :=
  {| text := "Stuttgart"; label_ := "GPE"; sent := sref n 15 102;
     root := token_at (offices_parse n) 15 |}.

Definition offices_doc (n : nat) : Doc :=
  {| ents := [offices_stuttgart_first n; offices_siemens n;
              offices_stuttgart_near n; offices_stuttgart_last n];
     sents :=
       [ {| sent_ref := sref n 0 14;
            sent_tokens := token_at (offices_parse n) <$> seq 0 3;
            sent_ents := [] |};
         {| sent_ref := sref n 15 102;
            sent_tokens := token_at (offices_parse n) <$> seq 3 14;
            sent_ents := [offices_stuttgart_first n; offices_siemens n;
                          offices_stuttgart_near n; offices_stuttgart_last n] |} ] |}.

Definition offices_nlp : nat → string → Doc :=
  nlp_for (text_block_of offices_unit) offices_doc.

End Scenario.

(** * Properties *)

Example normalize_great_firewall :
  normalize_entity manual_synonyms "  The Great Firewall " = "Great Firewall".
Proof. vm_compute. reflexivity. Qed.

Example normalize_usa :
  normalize_entity manual_synonyms "the US" = "USA".
Proof. vm_compute. reflexivity. Qed.

(** ** Strings *)

Module PyStrFacts.
Import PyStr.

Lemma app_cons (c : ascii) (s t : string) : String c s ++ t = String c (s ++ t).
Proof. reflexivity. Qed.

Lemma app_empty (t : string) : "" ++ t = t.
Proof. reflexivity. Qed.

Lemma lower_char_space (c : ascii) : lower_char c = " "%char ↔ c = " "%char.
Proof.
  split; [|by intros ->].
  destruct c as [[] [] [] [] [] [] [] []]; vm_compute; congruence.
Qed.

Lemma lower_char_idemp (c : ascii) : lower_char (lower_char c) = lower_char c.
Proof. destruct c as [[] [] [] [] [] [] [] []]; vm_compute; reflexivity. Qed.

Lemma lower_idemp (s : string) : lower (lower s) = lower s.
Proof. induction s as [|c s IH]; simpl; [done|]. by rewrite lower_char_idemp, IH. Qed.

Lemma lower_app (s t : string) : lower (s ++ t) = lower s ++ lower t.
Proof. induction s as [|c s IH]; [done|]. rewrite app_cons. simpl. by rewrite IH. Qed.

(** [lstrip] removes a run of whitespace and stops at the first character
    that is none. *)
Lemma lstrip_spec (s : string) :
  ∃ l, s = l ++ lstrip s ∧ all_space l = true
       ∧ ∀ c, first_char (lstrip s) = Some c → is_space c = false.
Proof.
  induction s as [|c s (l & Hs & Hl & Hc)]; simpl.
  - by exists "".
  - destruct (is_space c) eqn:Hsp.
    + exists (String c l). rewrite app_cons. simpl. rewrite Hsp, Hl.
      split; [by f_equal|done].
    + exists "". rewrite app_empty. simpl. split; [done|]. split; [done|].
      by intros ? [= <-].
Qed.

Lemma rstrip_spec (s : string) :
  ∃ r, s = rstrip s ++ r ∧ all_space r = true
       ∧ (∀ c, last_char (rstrip s) = Some c → is_space c = false)
       ∧ (rstrip s ≠ "" → first_char (rstrip s) = first_char s).
Proof.
  induction s as [|c s (r & Hs & Hr & Hc & Hf)]; simpl.
  - by exists "".
  - destruct (rstrip s) as [|c' s'] eqn:Hrs.
    + rewrite app_empty in Hs. subst s. destruct (is_space c) eqn:Hsp.
      * exists (String c r). rewrite app_empty. simpl. by rewrite Hsp, Hr.
      * exists r. rewrite app_cons, app_empty. simpl.
        split; [done|]. split; [done|]. split; [by intros ? [= <-]|done].
    + exists r. rewrite app_cons. split; [by rewrite Hs at 1|]. split; [done|].
      split; [|done]. intros c0 Hc0. apply Hc. simpl.
      by destruct s'.
Qed.

(** [strip] removes the whitespace at both ends and nothing else. *)
Lemma strip_spec (s : string) :
  ∃ l r, s = l ++ strip s ++ r ∧ all_space l = true ∧ all_space r = true
         ∧ (∀ c, first_char (strip s) = Some c → is_space c = false)
         ∧ (∀ c, last_char (strip s) = Some c → is_space c = false).
Proof.
  unfold strip. destruct (lstrip_spec s) as (l & Hs & Hl & Hc).
  destruct (rstrip_spec (lstrip s)) as (r & Hs' & Hr & Hc' & Hf).
  exists l, r. split; [by rewrite <-Hs'|]. split; [done|]. split; [done|].
  split; [|done]. intros c Hfc. apply Hc. rewrite <-Hf; [done|].
  intros Hnil. by rewrite Hnil in Hfc.
Qed.

Lemma lstrip_id (s : string) :
  (∀ c, first_char s = Some c → is_space c = false) → lstrip s = s.
Proof.
  destruct s as [|c s]; simpl; [done|]. intros H. by rewrite (H c).
Qed.

Lemma rstrip_id (s : string) :
  (∀ c, last_char s = Some c → is_space c = false) → rstrip s = s.
Proof.
  induction s as [|c s IH]; simpl; [done|]. intros H.
  destruct s as [|c' s'].
  - simpl. by rewrite (H c).
  - rewrite IH; [done|]. intros c0 Hc0. by apply H.
Qed.

Lemma strip_idemp (s : string) : strip (strip s) = strip s.
Proof.
  destruct (strip_spec s) as (l & r & _ & _ & _ & Hf & Hl).
  unfold strip at 1. rewrite (lstrip_id (strip s)) by done. by apply rstrip_id.
Qed.

End PyStrFacts.

(** ** The normalizer *)

Section NormalizerFacts.
Import PyStr PyStrFacts.

Variable m : gmap string string.

(** The test [lower().startswith("the ")] followed by the slice [[4:]] is
    the removal of one article. *)
Lemma article_removal (s : string) :
  (if startswith (lower s) "the " then slice_from 4 s else s) = strip_article s.
Proof.
  destruct s as [|a [|b [|c [|d rest]]]].
  1-4: simpl; repeat case_decide; done.
  unfold strip_article, ci_eq. simpl.
  destruct (decide ("t"%char = lower_char a)) as [Ha|Ha]; simpl; cycle 1.
  { rewrite (bool_decide_eq_false_2 (lower_char a = _)) by done. done. }
  destruct (decide ("h"%char = lower_char b)) as [Hb|Hb]; simpl; cycle 1.
  { rewrite (bool_decide_eq_false_2 (lower_char b = _)) by done.
    by rewrite andb_false_r. }
  destruct (decide ("e"%char = lower_char c)) as [Hc|Hc]; simpl; cycle 1.
  { rewrite (bool_decide_eq_false_2 (lower_char c = _)) by done.
    by rewrite andb_false_r. }
  rewrite !(bool_decide_eq_true_2 (lower_char _ = _)) by done. simpl.
  destruct (decide (" "%char = lower_char d)) as [Hd|Hd].
  - symmetry in Hd. apply (proj1 (lower_char_space d)) in Hd. subst d.
    rewrite bool_decide_eq_true_2 by done. by destruct rest.
  - rewrite bool_decide_eq_false_2; [done|]. by intros ->.
Qed.

Lemma normalize_entity_unfold (raw : string) :
  normalize_entity m raw
  = default (strip_article (strip raw)) (m !! lower (strip_article (strip raw))).
Proof. unfold normalize_entity. by rewrite article_removal. Qed.

(** What [strip_article] removes is a four-character prefix that reads
    "the " in lower case. *)
Lemma strip_article_prefix (s : string) :
  strip_article s = s
  ∨ ∃ p, String.length p = 4 ∧ lower p = "the " ∧ s = p ++ strip_article s.
Proof.
  destruct s as [|a [|b [|c [|d rest]]]]; try by left.
  unfold strip_article, ci_eq.
  destruct (bool_decide _) eqn:Ha; [|by left].
  destruct (bool_decide (lower_char b = _)) eqn:Hb; [|by left].
  destruct (bool_decide (lower_char c = _)) eqn:Hc; [|by left].
  destruct (bool_decide (d = _)) eqn:Hd; [|by left].
  right. exists (String a (String b (String c (String d "")))).
  apply bool_decide_eq_true_1 in Ha, Hb, Hc, Hd. subst d. simpl.
  by rewrite Ha, Hb, Hc.
Qed.

Lemma startswith_the_prefix (s : string) :
  startswith (lower s) "the " = true →
  ∃ p, String.length p = 4 ∧ lower p = "the " ∧ s = p ++ slice_from 4 s.
Proof.
  destruct s as [|a [|b [|c [|d rest]]]]; simpl; repeat case_decide; try done.
  intros _. exists (String a (String b (String c (String d "")))).
  simpl. split; [done|]. split; [|done].
  repeat match goal with H : _ = lower_char _ |- _ => rewrite <-H; clear H end.
  done.
Qed.

(** Normalization only looks at the stripped text. *)
Lemma normalize_entity_strip (raw : string) :
  normalize_entity m (strip raw) = normalize_entity m raw.
Proof. unfold normalize_entity. by rewrite strip_idemp. Qed.

Lemma normalize_entity_same_strip (s t : string) :
  strip s = strip t → normalize_entity m s = normalize_entity m t.
Proof. unfold normalize_entity. by intros ->. Qed.

End NormalizerFacts.

(** C5. For every input string [raw] and synonym map [m],
    [normalize_entity] does what the specification lists, in that order: it
    trims the surrounding whitespace (and only that); if the trimmed text
    starts, in any letter case, with "the ", it removes exactly that
    four-character prefix; it looks the remaining text up, lower-cased, in
    [m] and returns the canonical value when there is one, and the remaining
    text with its own casing otherwise. The function is total: a string
    comes back for every input. *)
Theorem normalize_entity_meets_spec (m : gmap string string) (raw : string) :
  let trimmed := PyStr.strip raw in
  let stripped := strip_article trimmed in
  normalize_entity m raw = normalize_spec m raw
  ∧ (∃ l r, raw = l ++ trimmed ++ r
            ∧ PyStr.all_space l = true ∧ PyStr.all_space r = true
            ∧ (∀ c, PyStr.first_char trimmed = Some c → PyStr.is_space c = false)
            ∧ (∀ c, PyStr.last_char trimmed = Some c → PyStr.is_space c = false))
  ∧ (PyStr.startswith (PyStr.lower trimmed) "the " = true
     ∧ (∃ p, String.length p = 4 ∧ PyStr.lower p = "the " ∧ trimmed = p ++ stripped)
     ∨ PyStr.startswith (PyStr.lower trimmed) "the " = false ∧ stripped = trimmed)
  ∧ match m !! PyStr.lower stripped with
    | Some canonical => normalize_entity m raw = canonical
    | None => normalize_entity m raw = stripped
    end.
Proof.
  intros trimmed stripped. repeat split.
  - rewrite normalize_entity_unfold. unfold normalize_spec.
    by destruct (m !! _).
  - apply PyStrFacts.strip_spec.
  - subst stripped. pose proof (article_removal trimmed) as Hrem.
    destruct (PyStr.startswith _ _) eqn:Hsw; [left|right]; (split; [done|]).
    + rewrite <-Hrem. by apply startswith_the_prefix.
    + by rewrite <-Hrem.
  - rewrite normalize_entity_unfold. fold trimmed. fold stripped.
    by destruct (m !! _).
Qed.

(** C8, as stated, fails: with the empty synonym map, "the the x" is
    normalized to "the x", which is normalized to "x". *)
Lemma normalize_not_idempotent :
  normalize_entity ∅ (normalize_entity ∅ "the the x")
  ≠ normalize_entity ∅ "the the x".
Proof. vm_compute. discriminate. Qed.

(** C8, amended. A string [x] that has no whitespace at either end, does
    not start (in any letter case) with "the ", and whose lower-case form is
    either no key of the synonym map or a key mapped to [x] itself, is left
    unchanged: [normalize(x) = x]. Normalization is idempotent at every [y]
    whose normal form is such a string. *)
Theorem normalize_fixed_point (m : gmap string string) (x : string) :
  PyStr.strip x = x →
  PyStr.startswith (PyStr.lower x) "the " = false →
  m !! PyStr.lower x = None ∨ m !! PyStr.lower x = Some x →
  normalize_entity m x = x.
Proof.
  intros Hstrip Hthe Hmap. unfold normalize_entity. rewrite Hstrip, Hthe.
  by destruct Hmap as [-> | ->].
Qed.

Lemma normalize_fixed_point_witness :
  let x := normalize_entity manual_synonyms "  The Great Firewall " in
  normalize_entity manual_synonyms x = x.
Proof.
  apply (normalize_fixed_point manual_synonyms
           (normalize_entity manual_synonyms "  The Great Firewall ")).
  - vm_compute. reflexivity.
  - vm_compute. reflexivity.
  - left. vm_compute. reflexivity.
Defined.

(** ** The relation classifier *)

Section ClassifierFacts.

Lemma matching_labels_cons rel_label verbs rest lemma :
  matching_labels ((rel_label, verbs) :: rest) lemma
  = ((if decide (PyStr.lower lemma ∈ verbs) then [rel_label] else [])
     ++ matching_labels rest lemma)%list.
Proof. reflexivity. Qed.

Lemma matching_labels_none (verbs : gset string) rest lemma :
  PyStr.lower lemma ∈ verbs →
  Forall (λ entry : string * gset string, verbs ## entry.2) rest →
  matching_labels rest lemma = [].
Proof.
  intros Hin. induction 1 as [|[k v] rest Hdisj _ IH]; [done|].
  rewrite matching_labels_cons, IH. simpl in Hdisj.
  rewrite decide_False; [done|]. intros Hin'. by apply (Hdisj (PyStr.lower lemma)).
Qed.

(** On a table of disjoint trigger sets the loop over all kinds emits what
    a first-match lookup emits. *)
Lemma matching_labels_first patterns lemma :
  table_disjoint patterns →
  matching_labels patterns lemma = option_list (classify_first patterns lemma).
Proof.
  induction patterns as [|[k v] rest IH]; [done|]. intros [Hdisj Hrest].
  rewrite matching_labels_cons. simpl. case_decide.
  - by rewrite (matching_labels_none v).
  - by apply IH.
Qed.

Lemma RELATION_PATTERNS_disjoint : table_disjoint RELATION_PATTERNS.
Proof.
  unfold RELATION_PATTERNS. simpl.
  repeat split; repeat apply Forall_cons_2; try apply Forall_nil_2; simpl.
  all: match goal with
       | |- ?X ## ?Y => apply (bool_decide_unpack (X ## Y)); vm_compute; exact I
       end.
Qed.

Lemma token_relations_label patterns ents_in_sent token r :
  r ∈ token_relations patterns ents_in_sent token →
  r.1.2 ∈ matching_labels patterns (tok_lemma token).
Proof.
  unfold token_relations, matching_labels.
  rewrite !list_elem_of_bind. intros ([k v] & Hr & Hkv).
  exists (k, v). split; [|done]. case_decide; [|by apply elem_of_nil in Hr].
  apply list_elem_of_bind in Hr as ([e1 e2] & Hr & _).
  destruct (within_max _); [|by apply elem_of_nil in Hr].
  apply list_elem_of_singleton in Hr as ->. simpl. by apply list_elem_of_singleton.
Qed.

End ClassifierFacts.

(** The loop itself has no first-match guard: on a table in which two
    trigger sets share a lemma it emits both kinds. *)
Example matching_labels_overlap :
  matching_labels [("is_a", {["be"]}); ("uses", {["be"; "use"]})] "Be"
  = ["is_a"; "uses"].
Proof. vm_compute. reflexivity. Qed.

(** C4. For every lemma, the classification over [RELATION_PATTERNS] emits
    at most one relation kind, and the kind emitted is the first one, in
    declaration order (is_a, regulates, uses, based_on, part_of), whose
    trigger set holds the lower-cased lemma; so all the triples that one
    token contributes carry the same kind. *)
Theorem classification_emits_one_kind (lemma : string) :
  matching_labels RELATION_PATTERNS lemma
  = option_list (classify_first RELATION_PATTERNS lemma)
  ∧ length (matching_labels RELATION_PATTERNS lemma) ≤ 1
  ∧ ∀ (ents_in_sent : list Span) (token : Token) r1 r2,
      tok_lemma token = lemma →
      r1 ∈ token_relations RELATION_PATTERNS ents_in_sent token →
      r2 ∈ token_relations RELATION_PATTERNS ents_in_sent token →
      r1.1.2 = r2.1.2.
Proof.
  pose proof (matching_labels_first RELATION_PATTERNS lemma
                RELATION_PATTERNS_disjoint) as Hfirst.
  split; [done|]. split.
  - rewrite Hfirst. destruct (classify_first _ _); simpl; lia.
  - intros ents_in_sent token r1 r2 <- H1 H2.
    apply token_relations_label in H1, H2. rewrite Hfirst in H1, H2.
    destruct (classify_first _ _); simpl in *.
    + apply list_elem_of_singleton in H1, H2. congruence.
    + by apply elem_of_nil in H1.
Qed.

(** ** Deduplication by raw text *)

Section DictFacts.

Context {V : Type}.
Implicit Types (d : list (string * V)) (k : string) (v : V).

Lemma dict_setitem_keys k v d :
  (dict_setitem k v d).*1 = if decide (k ∈ d.*1) then d.*1 else (d.*1 ++ [k])%list.
Proof.
  induction d as [|[k' v'] d IH]; csimpl; [done|].
  destruct (decide (k = k')) as [<-|Hk].
  - csimpl. rewrite decide_True; [done|]. by left.
  - csimpl. rewrite IH. destruct (decide (k ∈ d.*1)) as [Hin|Hin].
    + rewrite decide_True; [done|]. by right.
    + rewrite decide_False; [done|]. by intros [?|?]%elem_of_cons.
Qed.

Lemma dict_setitem_elem k v d k' v' :
  NoDup d.*1 →
  (k', v') ∈ dict_setitem k v d ↔ (k' = k ∧ v' = v) ∨ (k' ≠ k ∧ (k', v') ∈ d).
Proof.
  induction d as [|[k0 v0] d IH]; csimpl; intros Hnd.
  - rewrite list_elem_of_singleton. split.
    + intros [= -> ->]. by left.
    + intros [[-> ->]|[_ H]]; [done|]. by apply elem_of_nil in H.
  - apply NoDup_cons in Hnd as [Hk0 Hnd]. destruct (decide (k = k0)) as [<-|Hk].
    + rewrite !elem_of_cons. split.
      * intros [[= -> ->]|Hin]; [by left|]. right. split; [|by right].
        intros ->. apply Hk0. apply list_elem_of_fmap. by exists (k, v').
      * intros [[-> ->]|[Hne [[= ? ?]|Hin]]]; [by left|done|by right].
    + rewrite !elem_of_cons, (IH Hnd). split.
      * intros [[= -> ->]|[[-> ->]|[Hne Hin]]]; [|by left|].
        -- right. split; [done|by left].
        -- right. split; [done|by right].
      * intros [[-> ->]|[Hne [[= -> ->]|Hin]]].
        -- right. by left.
        -- by left.
        -- right. right. by split.
Qed.

Lemma dict_setitem_NoDup k v d : NoDup d.*1 → NoDup (dict_setitem k v d).*1.
Proof.
  intros Hnd. rewrite dict_setitem_keys. case_decide; [done|].
  apply NoDup_app. split; [done|]. split; [|apply NoDup_singleton].
  intros x Hx ->%list_elem_of_singleton. done.
Qed.

Variable key : V → string.

(** The dictionary [{key(x): x for x in l}]. *)
Let dict_of (l : list V) : list (string * V) :=
  foldl (λ d x, dict_setitem (key x) x d) [] l.

(** The entries of the dictionary: each key with the last element of the
    list that has it. *)
Lemma dict_of_spec (l : list V) :
  NoDup (dict_of l).*1
  ∧ (dict_of l).*1 = first_occurrences (key <$> l)
  ∧ ∀ k v, (k, v) ∈ dict_of l ↔
      ∃ l1 l2, l = (l1 ++ v :: l2)%list ∧ key v = k ∧ ∀ x, x ∈ l2 → key x ≠ k.
Proof.
  induction l as [|x l (Hnd & Hkeys & IH)] using rev_ind.
  - split; [constructor|]. split; [done|]. intros k v. split.
    + by intros ?%elem_of_nil.
    + intros (l1 & l2 & Hl & _). by destruct l1.
  - unfold dict_of in *. rewrite foldl_snoc. split; [by apply dict_setitem_NoDup|].
    split.
    { rewrite dict_setitem_keys, Hkeys. unfold first_occurrences.
      rewrite fmap_app. change (key <$> [x]) with [key x]. by rewrite foldl_snoc. }
    intros k v. rewrite (dict_setitem_elem _ _ _ _ _ Hnd), IH. split.
    + intros [[-> ->]|[Hne (l1 & l2 & -> & Hk & Hl2)]].
      * exists l, []. split; [done|]. split; [done|]. by intros ? ?%elem_of_nil.
      * exists l1, (l2 ++ [x])%list. split; [by rewrite <-app_assoc|].
        split; [done|]. intros y [Hy| ->%list_elem_of_singleton]%elem_of_app; [by apply Hl2|done].
    + intros (l1 & l2 & Hl & Hk & Hl2).
      destruct l2 as [|y l2 _] using rev_ind.
      * apply app_inj_tail in Hl as [-> ->]. by left.
      * rewrite app_comm_cons, app_assoc in Hl.
        apply app_inj_tail in Hl as [-> ->]. right. split.
        -- intros Heq. apply (Hl2 y); [|done]. apply elem_of_app. right. by left.
        -- exists l1, l2. split; [done|]. split; [done|].
           intros z Hz. apply Hl2. apply elem_of_app. by left.
Qed.

End DictFacts.

Section DedupeFacts.

Lemma dedupe_by_text_elem (ents : list Span) (e : Span) :
  e ∈ dedupe_by_text ents ↔
  ∃ l1 l2, ents = (l1 ++ e :: l2)%list ∧ ∀ e', e' ∈ l2 → text_key e' ≠ text_key e.
Proof.
  unfold dedupe_by_text. destruct (dict_of_spec text_key ents) as (_ & _ & Hspec).
  rewrite list_elem_of_fmap. split.
  - intros ([k v] & -> & Hin). apply Hspec in Hin as (l1 & l2 & -> & <- & Hl2).
    by exists l1, l2.
  - intros (l1 & l2 & -> & Hl2). exists (text_key e, e). split; [done|].
    apply Hspec. by exists l1, l2.
Qed.

Lemma dedupe_by_text_keys (ents : list Span) :
  text_key <$> dedupe_by_text ents = first_occurrences (text_key <$> ents).
Proof.
  unfold dedupe_by_text. destruct (dict_of_spec text_key ents) as (_ & <- & Hspec).
  apply list_eq. intros i. rewrite !list_lookup_fmap.
  destruct (_ !! i) as [[k v]|] eqn:Hi; [|done]. simpl. f_equal.
  apply list_elem_of_lookup_2, Hspec in Hi as (_ & _ & _ & Hk & _). done.
Qed.

Lemma first_occurrences_elem (l : list string) (k : string) :
  k ∈ first_occurrences l ↔ k ∈ l.
Proof.
  unfold first_occurrences. induction l as [|x l IH] using rev_ind; [done|].
  rewrite foldl_snoc. case_decide as Hx.
  - rewrite IH, elem_of_app, list_elem_of_singleton. split; [by left|].
    intros [?| ->]; [done|]. by apply IH.
  - by rewrite !elem_of_app, IH.
Qed.

Lemma dedupe_by_text_covers (ents : list Span) (e : Span) :
  e ∈ ents → ∃ e', e' ∈ dedupe_by_text ents ∧ text_key e' = text_key e.
Proof.
  intros He.
  assert (text_key e ∈ text_key <$> dedupe_by_text ents) as Hin.
  { rewrite dedupe_by_text_keys, first_occurrences_elem.
    apply list_elem_of_fmap. by exists e. }
  apply list_elem_of_fmap in Hin as (e' & Heq & Hin). by exists e'.
Qed.

Lemma dedupe_by_text_NoDup (ents : list Span) :
  NoDup (text_key <$> dedupe_by_text ents).
Proof.
  rewrite dedupe_by_text_keys. unfold dedupe_by_text.
  destruct (dict_of_spec text_key ents) as (Hnd & <- & _). done.
Qed.

End DedupeFacts.

(** C3, as stated, fails. In the unit ("What is used?", "Siemens uses
    Bosch. Bosch grows.") the text "Bosch" is found twice. When the set of
    mentions is listed in the order of the text, the mention kept is the
    second one, of the last sentence; when it is listed the other way
    round, the mention kept is again the one listed last. In neither case
    is it the one that comes first. *)
Lemma dedupe_first_wins_fails :
  let block := text_block_of Scenario.users_unit in
  let found order :=
    (extract_entities Scenario.users_nlp Scenario.no_terms order 1 block).1 in
  let kept order :=
    (unit_entities manual_synonyms Scenario.users_nlp Scenario.no_terms order 1
       block).1.1 in
  text_key (Scenario.used 1) = text_key (Scenario.used_again 1)
  ∧ Scenario.used 1 ≠ Scenario.used_again 1
  ∧ found Scenario.set_order
    = [Scenario.user 1; Scenario.used 1; Scenario.used_again 1]
  ∧ kept Scenario.set_order = [Scenario.user 1; Scenario.used_again 1]
  ∧ found Scenario.set_order_rev
    = [Scenario.used_again 1; Scenario.used 1; Scenario.user 1]
  ∧ kept Scenario.set_order_rev = [Scenario.used 1; Scenario.user 1].
Proof.
  intros block found kept. split; [reflexivity|]. split; [discriminate|].
  repeat split; vm_compute; reflexivity.
Qed.

(** ** Loops and graphs *)

Section LoopFacts.

Lemma index_pairs_elem (n i j : nat) : (i, j) ∈ index_pairs n ↔ i < j < n.
Proof.
  unfold index_pairs. rewrite list_elem_of_bind. split.
  - intros (i' & Hin & Hi'). apply elem_of_seq in Hi'.
    apply list_elem_of_bind in Hin as (j' & Hin & Hj').
    apply list_elem_of_singleton in Hin as [= -> ->]. apply elem_of_seq in Hj'. lia.
  - intros [Hij Hjn]. exists i. split; [|apply elem_of_seq; lia].
    apply list_elem_of_bind. exists j. split; [by apply list_elem_of_singleton|].
    apply elem_of_seq. lia.
Qed.

Lemma foldl_invariant {St B} (P : St → Prop) (f : St → B → St) (l : list B) (a : St) :
  (∀ s x, P s → P (f s x)) → P a → P (foldl f a l).
Proof. intros Hf. revert a. induction l as [|x l IH]; simpl; auto. Qed.

Lemma for_enumerate_app {St} (f : St → nat → string * string → St) st start l1 l2 :
  for_enumerate f st start (l1 ++ l2)%list
  = for_enumerate f (for_enumerate f st start l1) (start + length l1) l2.
Proof.
  revert st start. induction l1 as [|x l1 IH]; intros st start; simpl.
  - by rewrite Nat.add_0_r.
  - rewrite IH. f_equal. lia.
Qed.

Lemma for_enumerate_invariant {St} (P : St → Prop)
    (f : St → nat → string * string → St) st start l :
  (∀ s idx qa, P s → P (f s idx qa)) → P st → P (for_enumerate f st start l).
Proof. intros Hf. revert st start. induction l as [|x l IH]; simpl; auto. Qed.

(** The iteration that handles the unit [qa] of [pre ++ qa :: post] runs
    with the 1-based index of the unit, on the state left by [pre]. *)
Lemma for_enumerate_unit {St} (f : St → nat → string * string → St) st pre qa post :
  for_enumerate f st 1 (pre ++ qa :: post)%list
  = for_enumerate f (f (for_enumerate f st 1 pre) (S (length pre)) qa)
      (S (S (length pre))) post.
Proof. by rewrite for_enumerate_app. Qed.

Lemma all_entities_add (all_entities : gset string) (ents_norm : list string) x :
  x ∈ foldl (λ acc ent, {[ent]} ∪ acc) all_entities ents_norm
  ↔ x ∈ all_entities ∨ x ∈ ents_norm.
Proof.
  revert all_entities. induction ents_norm as [|y l IH]; intros acc; simpl.
  - split; [by left|]. by intros [?|?%elem_of_nil].
  - rewrite IH, elem_of_union, elem_of_singleton, elem_of_cons. tauto.
Qed.

Context {A : Type}.
Implicit Types (G : Graph A) (u v : string) (a : A).

Lemma add_missing_nodes_spec (all_entities : gset string) G :
  nodes (add_missing_nodes all_entities G) = nodes G ∪ all_entities
  ∧ adj (add_missing_nodes all_entities G) = adj G.
Proof.
  unfold add_missing_nodes.
  apply (set_fold_ind_L (λ G' X, nodes G' = nodes G ∪ X ∧ adj G' = adj G)).
  - split; [by rewrite (right_id_L ∅ (∪))|done].
  - intros x X G' Hx [Hn Ha]. case_decide as Hin; simpl; (split; [|done]).
    + apply set_eq. intros z. rewrite Hn, !elem_of_union, elem_of_singleton.
      split; [tauto|]. intros [?|[->|?]]; [tauto| |tauto].
      rewrite Hn in Hin. by apply elem_of_union in Hin.
    + rewrite Hn. apply set_eq. intros z. rewrite !elem_of_union, elem_of_singleton.
      tauto.
Qed.

Lemma Graph_add_edge_adj u v a G p :
  adj (Graph_add_edge u v a G) !! p
  = if decide (p = (v, u)) then Some a
    else if decide (p = (u, v)) then Some a else adj G !! p.
Proof.
  simpl. rewrite lookup_insert. case_decide; [by rewrite decide_True|].
  rewrite decide_False by done. rewrite lookup_insert.
  case_decide; [by rewrite decide_True|]. by rewrite decide_False.
Qed.

Lemma Graph_add_edge_is_Some u v a G p :
  is_Some (adj G !! p) → is_Some (adj (Graph_add_edge u v a G) !! p).
Proof. rewrite Graph_add_edge_adj. by repeat case_decide. Qed.

Lemma DiGraph_add_edge_adj u v a G p :
  adj (DiGraph_add_edge u v a G) !! p
  = if decide (p = (u, v)) then Some a else adj G !! p.
Proof.
  simpl. rewrite lookup_insert. case_decide; [by rewrite decide_True|].
  by rewrite decide_False.
Qed.

Lemma has_edge_false G u v : has_edge G u v = false ↔ adj G !! (u, v) = None.
Proof.
  unfold has_edge. rewrite bool_decide_eq_false, <-eq_None_not_Some. done.
Qed.

End LoopFacts.

(** ** The undirected assembler *)

Section CooccurrenceFacts.

Variable synonym_map : gmap string string.
Variable nlp : nat → string → Doc.
Variable findall : string → list string.
Variable list_of_set : list Span → list Span.

Local Abbreviation normalize := (normalize_entity synonym_map).
Local Abbreviation unit_ents := (unit_entities synonym_map nlp findall list_of_set).
Local Abbreviation unit_step := (build_graph_unit synonym_map nlp findall list_of_set).

Lemma unit_entities_eq calls text_block :
  unit_ents calls text_block
  = (dedupe_by_text (extract_entities nlp findall list_of_set calls text_block).1,
     (λ ent, normalize (text ent))
       <$> dedupe_by_text (extract_entities nlp findall list_of_set calls text_block).1,
     (extract_entities nlp findall list_of_set calls text_block).2).
Proof. unfold unit_entities. by destruct (extract_entities _ _ _ _ _). Qed.

Lemma build_graph_unit_eq (st : build_state Title) idx qa :
  unit_step st idx qa
  = let r := unit_ents (S (calls_of st)) (text_block_of qa) in
    (foldl (cooccurrence_step idx r.1.1 r.1.2) (graph_of st)
       (index_pairs (length r.1.2)),
     foldl (λ acc ent, {[ent]} ∪ acc) (entities_of st) r.1.2,
     r.2).
Proof.
  destruct st as [[G all_entities] calls]. unfold build_graph_unit, text_block_of.
  by destruct (unit_entities _ _ _ _ _ _) as [[ents ents_norm] calls'].
Qed.

Lemma cooccurrence_step_is_Some idx ents_list ents_norm (G : Graph Title) ij p :
  is_Some (adj G !! p) →
  is_Some (adj (cooccurrence_step idx ents_list ents_norm G ij) !! p).
Proof.
  intros HG. unfold cooccurrence_step.
  repeat (case_match; try done); by apply Graph_add_edge_is_Some.
Qed.

(** An edge added at the pair [(i, j)] of the double loop is still in the
    graph, under some title, when the loop ends. *)
Lemma cooccurrence_loop_edge idx ents_list ents_norm (G : Graph Title) i j ni nj t :
  i < j < length ents_norm →
  (∀ G', cooccurrence_step idx ents_list ents_norm G' (i, j) = Graph_add_edge ni nj t G') →
  let G_end := foldl (cooccurrence_step idx ents_list ents_norm) G
                 (index_pairs (length ents_norm)) in
  is_Some (adj G_end !! (ni, nj)) ∧ is_Some (adj G_end !! (nj, ni)).
Proof.
  intros Hij Hstep G_end. subst G_end.
  apply index_pairs_elem, list_elem_of_split in Hij as (l1 & l2 & ->).
  rewrite foldl_app. simpl. rewrite Hstep.
  split; (apply foldl_invariant; [intros; by apply cooccurrence_step_is_Some|]);
    rewrite Graph_add_edge_adj; repeat case_decide; done.
Qed.

Local Abbreviation build := (build_graph synonym_map nlp findall list_of_set).

Lemma build_graph_eq qa_list :
  build qa_list
  = add_missing_nodes
      (entities_of (for_enumerate unit_step initial_state 1 qa_list))
      (graph_of (for_enumerate unit_step initial_state 1 qa_list)).
Proof.
  unfold build_graph, initial_state.
  by destruct (for_enumerate _ _ _ _) as [[G all_entities] calls].
Qed.

Lemma unit_step_is_Some (st : build_state Title) idx qa p :
  is_Some (adj (graph_of st) !! p) →
  is_Some (adj (graph_of (unit_step st idx qa)) !! p).
Proof.
  intros Hp. rewrite build_graph_unit_eq. simpl. unfold graph_of at 1. simpl.
  apply foldl_invariant; [|done]. intros. by apply cooccurrence_step_is_Some.
Qed.

Lemma unit_step_entities (st : build_state Title) idx qa x :
  x ∈ entities_of (unit_step st idx qa)
  ↔ x ∈ entities_of st ∨ x ∈ (unit_ents (S (calls_of st)) (text_block_of qa)).1.2.
Proof.
  rewrite build_graph_unit_eq. simpl. unfold entities_of at 1. simpl.
  apply all_entities_add.
Qed.

(** What one unit puts into the graph or into [all_entities] is there when
    [build_graph] ends. *)
Lemma unit_edge_final pre qa post p :
  let st := for_enumerate unit_step initial_state 1 pre in
  is_Some (adj (graph_of (unit_step st (S (length pre)) qa)) !! p) →
  is_Some (adj (build (pre ++ qa :: post)) !! p).
Proof.
  intros st Hp. rewrite build_graph_eq.
  destruct (add_missing_nodes_spec
              (entities_of (for_enumerate unit_step initial_state 1 (pre ++ qa :: post)))
              (graph_of (for_enumerate unit_step initial_state 1 (pre ++ qa :: post))))
    as [_ ->].
  rewrite for_enumerate_unit.
  apply (for_enumerate_invariant (λ s, is_Some (adj (graph_of s) !! p))); [|done].
  intros. by apply unit_step_is_Some.
Qed.

Lemma unit_entity_final pre qa post x :
  let st := for_enumerate unit_step initial_state 1 pre in
  x ∈ entities_of (unit_step st (S (length pre)) qa) →
  x ∈ nodes (build (pre ++ qa :: post)).
Proof.
  intros st Hx. rewrite build_graph_eq.
  destruct (add_missing_nodes_spec
              (entities_of (for_enumerate unit_step initial_state 1 (pre ++ qa :: post)))
              (graph_of (for_enumerate unit_step initial_state 1 (pre ++ qa :: post))))
    as [-> _].
  apply elem_of_union. right. rewrite for_enumerate_unit.
  apply (for_enumerate_invariant (λ s, x ∈ entities_of s)); [|done].
  intros s idx qa' Hs. apply unit_step_entities. by left.
Qed.

Lemma unit_ents_norm_lookup calls text_block i ei :
  (unit_ents calls text_block).1.1 !! i = Some ei →
  (unit_ents calls text_block).1.2 !! i = Some (normalize (text ei)).
Proof.
  rewrite unit_entities_eq. simpl. intros Hi. by rewrite list_lookup_fmap, Hi.
Qed.

Lemma unit_ents_length calls text_block :
  length (unit_ents calls text_block).1.2 = length (unit_ents calls text_block).1.1.
Proof. rewrite unit_entities_eq. simpl. by rewrite length_fmap. Qed.


(** C6, amended. In the undirected variant, for every two distinct
    mentions of one unit that are left after the mentions are merged by raw
    text (positions [i < j] of the deduplicated list, which keeps for each
    text the mention listed last) and that lie in the same sentence:
    when the dependency distance between their root tokens is defined and
    equal to 3, the loop body at [(i, j)] adds the strong edge between
    their normalized labels (and the final graph has an edge between them);
    when the distance is 4 or more, or undefined, the loop body at [(i, j)]
    leaves the graph as it is. *)
Theorem strong_edge_at_threshold pre qa post i j ei ej :
  let st := for_enumerate unit_step initial_state 1 pre in
  let idx := S (length pre) in
  let r := unit_ents (S (calls_of st)) (text_block_of qa) in
  let ni := normalize (text ei) in
  let nj := normalize (text ej) in
  i < j → r.1.1 !! i = Some ei → r.1.1 !! j = Some ej →
  sent ei = sent ej →
  (dependency_distance (root ei) (root ej) = Some 3 →
     (∀ G, cooccurrence_step idx r.1.1 r.1.2 G (i, j)
           = Graph_add_edge ni nj (Strong 3 idx) G)
     ∧ (i, j) ∈ index_pairs (length r.1.2)
     ∧ is_Some (adj (build (pre ++ qa :: post)) !! (ni, nj))
     ∧ is_Some (adj (build (pre ++ qa :: post)) !! (nj, ni)))
  ∧ (∀ d, dependency_distance (root ei) (root ej) = Some d → 4 ≤ d →
       ∀ G, cooccurrence_step idx r.1.1 r.1.2 G (i, j) = G)
  ∧ (dependency_distance (root ei) (root ej) = None →
       ∀ G, cooccurrence_step idx r.1.1 r.1.2 G (i, j) = G).
Proof.
  intros st idx r ni nj Hij Hi Hj Hsent.
  pose proof (unit_ents_norm_lookup _ _ _ _ Hi) as Hni. change (r.1.2 !! i = Some ni) in Hni.
  pose proof (unit_ents_norm_lookup _ _ _ _ Hj) as Hnj. change (r.1.2 !! j = Some nj) in Hnj.
  assert (i < j < length r.1.2) as Hlt.
  { pose proof (unit_ents_length (S (calls_of st)) (text_block_of qa)) as Hlen.
    change (length r.1.2 = length r.1.1) in Hlen.
    pose proof (lookup_lt_Some _ _ _ Hj). lia. }
  assert (∀ G, cooccurrence_step idx r.1.1 r.1.2 G (i, j)
               = if within_max (dependency_distance (root ei) (root ej))
                 then Graph_add_edge ni nj (Strong MAX_DEP_DISTANCE idx) G
                 else G) as Hstep.
  { intros G. unfold cooccurrence_step. simpl.
    rewrite Hi, Hj, Hni, Hnj.
    by rewrite decide_True. }
  split; [|split].
  - intros Hd. rewrite Hd in Hstep. simpl in Hstep.
    split; [done|]. split; [by apply index_pairs_elem|].
    destruct (cooccurrence_loop_edge idx r.1.1 r.1.2 (graph_of st) i j ni nj
                (Strong 3 idx) Hlt Hstep) as [H1 H2].
    split; apply unit_edge_final; fold st; rewrite build_graph_unit_eq; done.
  - intros d Hd Hge G. rewrite Hstep, Hd. simpl.
    rewrite bool_decide_eq_false_2; [done|]. unfold MAX_DEP_DISTANCE. lia.
  - intros Hd G. by rewrite Hstep, Hd.
Qed.

End CooccurrenceFacts.

(** C3, amended. For every unit, the mentions that [extract_entities]
    returns are merged by raw text (surrounding whitespace stripped) before
    they are normalized and used by the assembler: the entity list of the
    unit has one mention for each stripped text found, in the order in which
    the texts occur first, and the mention retained for a text is the last
    one found that has it. *)
Theorem dedupe_by_text_keeps_last (synonym_map : gmap string string)
    (nlp : nat → string → Doc) (findall : string → list string)
    (list_of_set : list Span → list Span) (calls : nat) (text_block : string) :
  let found := (extract_entities nlp findall list_of_set calls text_block).1 in
  let r := unit_entities synonym_map nlp findall list_of_set calls text_block in
  r.1.1 = dedupe_by_text found
  ∧ r.1.2 = (λ ent, normalize_entity synonym_map (text ent)) <$> r.1.1
  ∧ NoDup (text_key <$> r.1.1)
  ∧ text_key <$> r.1.1 = first_occurrences (text_key <$> found)
  ∧ (∀ e, e ∈ found → ∃ e', e' ∈ r.1.1 ∧ text_key e' = text_key e)
  ∧ (∀ e, e ∈ r.1.1 ↔
       ∃ l1 l2, found = (l1 ++ e :: l2)%list
                ∧ ∀ e', e' ∈ l2 → text_key e' ≠ text_key e).
Proof.
  intros found r. subst r. rewrite unit_entities_eq. simpl. fold found.
  split; [done|]. split; [done|]. split; [apply dedupe_by_text_NoDup|].
  split; [apply dedupe_by_text_keys|]. split.
  - intros e. apply dedupe_by_text_covers.
  - apply dedupe_by_text_elem.
Qed.

(** ** The directed assembler *)

Section RelationFacts.

Lemma combinations2_elem {A} (l : list A) (x y : A) :
  (x, y) ∈ combinations2 l ↔ ∃ i j, i < j ∧ l !! i = Some x ∧ l !! j = Some y.
Proof.
  induction l as [|a l IH]; simpl.
  - split; [by intros ?%elem_of_nil|]. by intros (i & j & _ & ? & _).
  - rewrite elem_of_app, list_elem_of_fmap, IH. split.
    + intros [(y' & [= -> ->] & Hy)|(i & j & Hij & Hi & Hj)].
      * apply list_elem_of_lookup in Hy as [k Hk]. exists 0, (S k).
        split; [lia|]. done.
      * exists (S i), (S j). split; [lia|]. done.
    + intros (i & j & Hij & Hi & Hj). destruct j as [|j]; [lia|]. destruct i as [|i].
      * left. simpl in Hi, Hj. injection Hi as ->. exists y. split; [done|].
        by apply list_elem_of_lookup_2 in Hj.
      * right. exists i, j. split; [lia|]. done.
Qed.

Lemma within_max_true (dist : option nat) :
  within_max dist = true ↔ ∃ d, dist = Some d ∧ d ≤ 3.
Proof.
  destruct dist as [d|]; simpl.
  - rewrite bool_decide_eq_true. unfold MAX_DEP_DISTANCE. split.
    + intros Hd. by exists d.
    + by intros (d' & [= ->] & Hd).
  - split; [done|]. by intros (d & ? & _).
Qed.

(** The triples of a sentence: one for each trigger token, each kind whose
    set holds its lemma, and each pair of positions of [sent.ents] whose
    roots are at distance at most 3. *)
Lemma extract_relations_elem (sent : Sentence) (t1 rel t2 : string) :
  (t1, rel, t2) ∈ extract_relations_in_sentence sent ↔
  ∃ token verbs e1 e2 i j d,
    token ∈ sent_tokens sent
    ∧ (rel, verbs) ∈ RELATION_PATTERNS
    ∧ PyStr.lower (tok_lemma token) ∈ verbs
    ∧ i < j ∧ sent_ents sent !! i = Some e1 ∧ sent_ents sent !! j = Some e2
    ∧ text e1 = t1 ∧ text e2 = t2
    ∧ dependency_distance (root e1) (root e2) = Some d ∧ d ≤ 3.
Proof.
  assert ((t1, rel, t2) ∈ (sent_tokens sent
            ≫= token_relations RELATION_PATTERNS (sent_ents sent)) ↔
          ∃ token verbs e1 e2 i j d,
            token ∈ sent_tokens sent
            ∧ (rel, verbs) ∈ RELATION_PATTERNS
            ∧ PyStr.lower (tok_lemma token) ∈ verbs
            ∧ i < j ∧ sent_ents sent !! i = Some e1 ∧ sent_ents sent !! j = Some e2
            ∧ text e1 = t1 ∧ text e2 = t2
            ∧ dependency_distance (root e1) (root e2) = Some d ∧ d ≤ 3) as Hmain.
  { rewrite list_elem_of_bind. unfold token_relations. split.
    - intros (token & Hin & Htok).
      apply list_elem_of_bind in Hin as ([rel' verbs] & Hin & Hpat).
      case_decide as Hlem; [|by apply elem_of_nil in Hin].
      apply list_elem_of_bind in Hin as ([e1 e2] & Hin & Hpair).
      destruct (within_max _) eqn:Hw; [|by apply elem_of_nil in Hin].
      apply list_elem_of_singleton in Hin as [= -> -> ->].
      apply combinations2_elem in Hpair as (i & j & Hij & Hi & Hj).
      apply within_max_true in Hw as (d & Hd & Hle).
      by exists token, verbs, e1, e2, i, j, d.
    - intros (token & verbs & e1 & e2 & i & j & d & Htok & Hpat & Hlem & Hij & Hi & Hj
              & <- & <- & Hd & Hle).
      exists token. split; [|done]. apply list_elem_of_bind.
      exists (rel, verbs). split; [|done]. rewrite decide_True by done.
      apply list_elem_of_bind. exists (e1, e2).
      split; [|apply combinations2_elem; by exists i, j].
      rewrite (proj2 (within_max_true _)); [by apply list_elem_of_singleton|].
      by exists d. }
  unfold extract_relations_in_sentence. case_decide as Hlen; [|done].
  split; [by intros ?%elem_of_nil|].
  intros (token & verbs & e1 & e2 & i & j & d & _ & _ & _ & Hij & Hi & Hj & _).
  apply lookup_lt_Some in Hj. lia.
Qed.

Variable synonym_map : gmap string string.

Local Abbreviation normalize := (normalize_entity synonym_map).
Local Abbreviation add_rel := (add_relation synonym_map).

Lemma foldl_nested {St B C} (g : St → C → St) (h : B → list C) (l : list B) (a : St) :
  foldl (λ s x, foldl g s (h x)) a l = foldl g a (l ≫= h).
Proof.
  revert a. induction l as [|x l IH]; intros a; [done|].
  simpl. by rewrite foldl_app, IH.
Qed.

Lemma relation_pass_flat doc (G : Graph string) :
  relation_pass synonym_map doc G
  = foldl add_rel G (sents doc ≫= extract_relations_in_sentence).
Proof. unfold relation_pass. apply foldl_nested. Qed.

Lemma add_relation_adj (G : Graph string) t1 rel t2 p :
  adj (add_rel G (t1, rel, t2)) !! p
  = if decide (p = (normalize t1, normalize t2)) then Some rel else adj G !! p.
Proof. unfold add_relation. apply DiGraph_add_edge_adj. Qed.

Lemma add_relations_is_Some triples (G : Graph string) p :
  is_Some (adj G !! p) → is_Some (adj (foldl add_rel G triples) !! p).
Proof.
  intros Hp. apply foldl_invariant; [|done]. intros G' [[t1 rel] t2] HG'.
  rewrite add_relation_adj. by case_decide.
Qed.

Lemma add_relations_edge triples (G : Graph string) t1 rel t2 :
  (t1, rel, t2) ∈ triples →
  is_Some (adj (foldl add_rel G triples) !! (normalize t1, normalize t2)).
Proof.
  intros (l1 & l2 & ->)%list_elem_of_split. rewrite foldl_app. cbn [foldl].
  apply add_relations_is_Some. rewrite add_relation_adj. by rewrite decide_True.
Qed.

Lemma add_relations_inv triples (G : Graph string) u v rel :
  adj (foldl add_rel G triples) !! (u, v) = Some rel →
  adj G !! (u, v) = Some rel
  ∨ ∃ t1 t2, (t1, rel, t2) ∈ triples ∧ u = normalize t1 ∧ v = normalize t2.
Proof.
  induction triples as [|[[t1 rel'] t2] triples IH] using rev_ind; [by left|].
  rewrite foldl_snoc, add_relation_adj. case_decide as Heq.
  - intros [= ->]. injection Heq as -> ->. right. exists t1, t2.
    split; [|done]. apply elem_of_app. right. by left.
  - intros [?|(t1' & t2' & Hin & ? & ?)]%IH; [by left|right].
    exists t1', t2'. split; [|done]. apply elem_of_app. by left.
Qed.

(** *** The weak-edge pass *)

Lemma weak_step_cases ents_all ents_norm (G : Graph string) ij :
  weak_step ents_all ents_norm G ij = G
  ∨ ∃ ni nj, ents_norm !! ij.1 = Some ni ∧ ents_norm !! ij.2 = Some nj
             ∧ adj G !! (ni, nj) = None
             ∧ weak_step ents_all ents_norm G ij = DiGraph_add_edge ni nj "co_occurs" G.
Proof.
  unfold weak_step.
  destruct (ents_all !! ij.1) as [ei|]; [|by left].
  destruct (ents_all !! ij.2) as [ej|]; [|by left].
  destruct (ents_norm !! ij.1) as [ni|]; [|by left].
  destruct (ents_norm !! ij.2) as [nj|]; [|by left].
  case_decide; [|by left]. destruct (has_edge G ni nj) eqn:Hedge; [by left|].
  right. exists ni, nj. by apply has_edge_false in Hedge.
Qed.

Lemma weak_step_preserves ents_all ents_norm (G : Graph string) ij p rel :
  adj G !! p = Some rel → adj (weak_step ents_all ents_norm G ij) !! p = Some rel.
Proof.
  intros Hp. destruct (weak_step_cases ents_all ents_norm G ij)
    as [->|(ni & nj & _ & _ & Hnone & ->)]; [done|].
  rewrite DiGraph_add_edge_adj, decide_False; [done|]. intros ->. congruence.
Qed.

Lemma weak_step_new ents_all ents_norm (G : Graph string) ij p rel :
  adj (weak_step ents_all ents_norm G ij) !! p = Some rel →
  adj G !! p = Some rel ∨ adj G !! p = None ∧ rel = "co_occurs".
Proof.
  destruct (weak_step_cases ents_all ents_norm G ij)
    as [->|(ni & nj & _ & _ & Hnone & ->)]; [by left|].
  rewrite DiGraph_add_edge_adj. case_decide as Heq; [|by left].
  subst p. intros [= <-]. by right.
Qed.

End RelationFacts.

(** C1. In the directed variant the weak-edge pass adds the edge
    [co_occurs] for an ordered pair of normalized labels only where the
    graph has no edge for that ordered pair; so an edge that carries a
    label (a verb-derived one in particular) when a weak-edge pass starts,
    in the same unit or in a later one, carries the same label when the
    pass ends, and every edge the pass leaves behind either was there with
    its label or is a new [co_occurs] edge. *)
Theorem cooccurrence_never_overwrites (ents_all : list Span)
    (ents_norm : list string) (G : Graph string) (u v rel : string) :
  adj G !! (u, v) = Some rel →
  adj (weak_pass ents_all ents_norm G) !! (u, v) = Some rel
  ∧ (∀ G' ij,
       weak_step ents_all ents_norm G' ij = G'
       ∨ ∃ ni nj, ents_norm !! ij.1 = Some ni ∧ ents_norm !! ij.2 = Some nj
                  ∧ has_edge G' ni nj = false
                  ∧ weak_step ents_all ents_norm G' ij
                    = DiGraph_add_edge ni nj "co_occurs" G')
  ∧ (∀ u' v' rel',
       adj (weak_pass ents_all ents_norm G) !! (u', v') = Some rel' →
       adj G !! (u', v') = Some rel'
       ∨ adj G !! (u', v') = None ∧ rel' = "co_occurs").
Proof.
  intros Huv. split; [|split].
  - unfold weak_pass.
    apply (foldl_invariant (λ G', adj G' !! (u, v) = Some rel)); [|done].
    intros. by apply weak_step_preserves.
  - intros G' ij. destruct (weak_step_cases ents_all ents_norm G' ij)
      as [?|(ni & nj & ? & ? & ?%has_edge_false & ?)]; [by left|right].
    by exists ni, nj.
  - intros u' v' rel'. unfold weak_pass.
    generalize (index_pairs (length ents_norm)). intros pairs.
    induction pairs as [|ij pairs IH] using rev_ind; [by left|].
    rewrite foldl_snoc. intros [Hold|[Hnone ->]]%weak_step_new.
    + by apply IH.
    + destruct (adj G !! (u', v')) as [r|] eqn:HG; [|by right].
      pose proof (foldl_invariant (λ G', adj G' !! (u', v') = Some r)
                    (weak_step ents_all ents_norm) pairs G
                    (λ s x H, weak_step_preserves _ _ s x _ _ H) HG) as Hkeep.
      simpl in Hkeep. congruence.
Qed.

(** C2, amended. In the directed variant, the verb-triggered triples of a
    sentence are exactly those built from a token of the sentence whose
    lower-cased lemma is in the trigger set of the kind, and from two
    entities at distinct positions [i < j] of the sentence's own entity
    list [sent.ents] whose root tokens have a defined dependency distance
    of at most 3; each triple of a sentence of the unit's document puts an
    edge between the two normalized texts into the graph, and every edge
    the sentence pass adds or relabels comes from such a triple. *)
Theorem verb_edges_from_sentence_entities (synonym_map : gmap string string)
    (doc : Doc) (G : Graph string) :
  (∀ sent t1 rel t2,
     (t1, rel, t2) ∈ extract_relations_in_sentence sent ↔
     ∃ token verbs e1 e2 i j d,
       token ∈ sent_tokens sent
       ∧ (rel, verbs) ∈ RELATION_PATTERNS
       ∧ PyStr.lower (tok_lemma token) ∈ verbs
       ∧ i < j ∧ sent_ents sent !! i = Some e1 ∧ sent_ents sent !! j = Some e2
       ∧ text e1 = t1 ∧ text e2 = t2
       ∧ dependency_distance (root e1) (root e2) = Some d ∧ d ≤ 3)
  ∧ (∀ sent t1 rel t2,
       sent ∈ sents doc → (t1, rel, t2) ∈ extract_relations_in_sentence sent →
       is_Some (adj (relation_pass synonym_map doc G)
                  !! (normalize_entity synonym_map t1, normalize_entity synonym_map t2)))
  ∧ (∀ u v rel,
       adj (relation_pass synonym_map doc G) !! (u, v) = Some rel →
       adj G !! (u, v) = Some rel
       ∨ ∃ sent t1 t2,
           sent ∈ sents doc ∧ (t1, rel, t2) ∈ extract_relations_in_sentence sent
           ∧ u = normalize_entity synonym_map t1
           ∧ v = normalize_entity synonym_map t2).
Proof.
  split; [|split].
  - apply extract_relations_elem.
  - intros sent t1 rel t2 Hsent Hin. rewrite relation_pass_flat.
    apply (add_relations_edge synonym_map _ G t1 rel t2).
    apply list_elem_of_bind. by exists sent.
  - intros u v rel. rewrite relation_pass_flat.
    intros [?|(t1 & t2 & Hin & -> & ->)]%add_relations_inv; [by left|right].
    apply list_elem_of_bind in Hin as (sent & Hin & Hsent).
    by exists sent, t1, t2.
Qed.

(** ** Runs of the scenarios *)

Example suppliers_distances :
  dependency_distance (root (Scenario.siemens 1)) (root (Scenario.stuttgart 1)) = Some 3
  ∧ dependency_distance (root (Scenario.munich 1)) (root (Scenario.bosch 1)) = Some 4
  ∧ dependency_distance (root (Scenario.siemens 1)) (root (Scenario.nokia 1)) = None.
Proof. vm_compute. done. Qed.

Example suppliers_entities :
  (unit_entities ∅ Scenario.suppliers_nlp Scenario.no_terms Scenario.set_order 1
     (text_block_of Scenario.suppliers_unit)).1
  = ([Scenario.siemens 1; Scenario.munich 1; Scenario.bosch 1;
      Scenario.stuttgart 1; Scenario.nokia 1],
     ["Siemens"; "Munich"; "Bosch"; "Stuttgart"; "Nokia"]).
Proof. vm_compute. reflexivity. Qed.

Example users_run :
  (unit_entities manual_synonyms Scenario.users_nlp Scenario.no_terms
     Scenario.set_order 1 (text_block_of Scenario.users_unit)).1
  = ([Scenario.user 1; Scenario.used_again 1], ["Siemens"; "Bosch"])
  ∧ extract_relations_in_sentence
      {| sent_ref := Scenario.sref 0 14 33;
         sent_tokens := token_at (Scenario.users_parse 0) <$> seq 4 4;
         sent_ents := [Scenario.user 0; Scenario.used 0] |}
    = [("Siemens", "uses", "Bosch")]
  ∧ adj (build_graph_with_relations manual_synonyms Scenario.users_nlp
           Scenario.no_terms Scenario.set_order [Scenario.users_unit])
      !! ("Siemens", "Bosch") = Some "uses".
Proof. vm_compute. done. Qed.

Lemma cooccurrence_never_overwrites_witness :
  let block := text_block_of Scenario.users_unit in
  let r := unit_entities manual_synonyms Scenario.users_nlp Scenario.no_terms
             Scenario.set_order 1 block in
  let G := relation_pass manual_synonyms (Scenario.users_nlp 0 block) empty_graph in
  adj G !! ("Siemens", "Bosch") = Some "uses"
  ∧ adj (weak_pass r.1.1 r.1.2 G) !! ("Siemens", "Bosch") = Some "uses".
Proof.
  intros block r G.
  assert (adj G !! ("Siemens", "Bosch") = Some "uses") as HG.
  { vm_compute. reflexivity. }
  split; [exact HG|].
  exact (proj1 (cooccurrence_never_overwrites r.1.1 r.1.2 G "Siemens" "Bosch" "uses" HG)).
Defined.

(** C2, as stated, fails: "Alice" and "Bob" are entities of kind PERSON,
    which the allow-list leaves out, so the entity set of the unit is
    empty; the sentence pass still adds the edge Alice -regulates-> Bob,
    and both become nodes of the graph. *)
Lemma verb_edge_outside_entity_set :
  let block := text_block_of Scenario.people_unit in
  let G := build_graph_with_relations manual_synonyms Scenario.people_nlp
             Scenario.no_terms Scenario.set_order [Scenario.people_unit] in
  (unit_entities manual_synonyms Scenario.people_nlp Scenario.no_terms
     Scenario.set_order 1 block).1 = ([], [])
  ∧ adj G !! ("Alice", "Bob") = Some "regulates"
  ∧ "Alice" ∈ nodes G ∧ "Bob" ∈ nodes G.
Proof.
  intros block G. split; [vm_compute; reflexivity|]. split; [vm_compute; reflexivity|].
  split; match goal with
         | |- ?P => apply (bool_decide_unpack P); vm_compute; exact I
         end.
Qed.

(** C10. The undirected assembler can produce self-loops. In the unit
    ("Is the US large?", "The USA is large.") the mentions "US" and "USA"
    are distinct raw texts in different sentences, the synonym table maps
    both to "USA", and [build_graph] returns a graph with the edge from
    "USA" to itself, whichever way the set of mentions is listed. In
    general the loop body does not look at the labels: two mentions in
    different sentences with one normalized label get an edge from that
    label to itself. *)
Theorem build_graph_self_loop :
  let block := text_block_of Scenario.country_unit in
  (unit_entities manual_synonyms Scenario.country_nlp Scenario.no_terms
     Scenario.set_order 1 block).1
  = ([Scenario.us 1; Scenario.usa 1], ["USA"; "USA"])
  ∧ text_key (Scenario.us 1) ≠ text_key (Scenario.usa 1)
  ∧ sent (Scenario.us 1) ≠ sent (Scenario.usa 1)
  ∧ adj (build_graph manual_synonyms Scenario.country_nlp Scenario.no_terms
           Scenario.set_order [Scenario.country_unit])
      !! ("USA", "USA") = Some (Weak 1)
  ∧ adj (build_graph manual_synonyms Scenario.country_nlp Scenario.no_terms
           Scenario.set_order_rev [Scenario.country_unit])
      !! ("USA", "USA") = Some (Weak 1)
  ∧ ∀ idx (ents_list : list Span) (ents_norm : list string) (G : Graph Title)
      i j ei ej n,
      ents_list !! i = Some ei → ents_list !! j = Some ej →
      ents_norm !! i = Some n → ents_norm !! j = Some n →
      sent ei ≠ sent ej →
      cooccurrence_step idx ents_list ents_norm G (i, j)
      = Graph_add_edge n n (Weak idx) G
      ∧ adj (cooccurrence_step idx ents_list ents_norm G (i, j)) !! (n, n)
        = Some (Weak idx).
Proof.
  intros block.
  split; [vm_compute; reflexivity|]. split; [vm_compute; discriminate|].
  split; [discriminate|]. split; [vm_compute; reflexivity|].
  split; [vm_compute; reflexivity|].
  intros idx ents_list ents_norm G i j ei ej n Hi Hj Hni Hnj Hsent.
  assert (cooccurrence_step idx ents_list ents_norm G (i, j)
          = Graph_add_edge n n (Weak idx) G) as ->.
  { unfold cooccurrence_step. simpl. rewrite Hi, Hj, Hni, Hnj. by rewrite decide_False. }
  split; [done|]. rewrite Graph_add_edge_adj. by rewrite decide_True.
Qed.

(** ** Orphan retention *)

Section NodeFacts.

Variable synonym_map : gmap string string.
Variable nlp : nat → string → Doc.
Variable findall : string → list string.
Variable list_of_set : list Span → list Span.

Local Abbreviation normalize := (normalize_entity synonym_map).
Local Abbreviation unit_ents := (unit_entities synonym_map nlp findall list_of_set).
Local Abbreviation rel_step := (build_relations_unit synonym_map nlp findall list_of_set).
Local Abbreviation rel_build :=
  (build_graph_with_relations synonym_map nlp findall list_of_set).

(** Every extracted mention has its normalized label in [ents_norm]. *)
Lemma extracted_label_in_ents_norm calls text_block e :
  e ∈ (extract_entities nlp findall list_of_set calls text_block).1 →
  normalize (text e) ∈ (unit_ents calls text_block).1.2.
Proof.
  intros (e' & Hin & Hkey)%dedupe_by_text_covers.
  rewrite unit_entities_eq. simpl. apply list_elem_of_fmap. exists e'.
  split; [|done]. by apply normalize_entity_same_strip.
Qed.

Lemma build_relations_unit_eq (st : build_state string) idx qa :
  rel_step st idx qa
  = let r := unit_ents (S (calls_of st)) (text_block_of qa) in
    (weak_pass r.1.1 r.1.2
       (relation_pass synonym_map (nlp (calls_of st) (text_block_of qa)) (graph_of st)),
     foldl (λ acc ent, {[ent]} ∪ acc) (entities_of st) r.1.2,
     r.2).
Proof.
  destruct st as [[G all_entities] calls]. unfold build_relations_unit, text_block_of.
  by destruct (unit_entities _ _ _ _ _ _) as [[ents_all ents_norm] calls'].
Qed.

Lemma build_graph_with_relations_eq qa_list :
  rel_build qa_list
  = add_missing_nodes
      (entities_of (for_enumerate rel_step initial_state 1 qa_list))
      (graph_of (for_enumerate rel_step initial_state 1 qa_list)).
Proof.
  unfold build_graph_with_relations, initial_state.
  by destruct (for_enumerate _ _ _ _) as [[G all_entities] calls].
Qed.

Lemma rel_step_entities (st : build_state string) idx qa x :
  x ∈ entities_of (rel_step st idx qa)
  ↔ x ∈ entities_of st ∨ x ∈ (unit_ents (S (calls_of st)) (text_block_of qa)).1.2.
Proof.
  rewrite build_relations_unit_eq. simpl. unfold entities_of at 1. simpl.
  apply all_entities_add.
Qed.

Lemma rel_unit_entity_final pre qa post x :
  let st := for_enumerate rel_step initial_state 1 pre in
  x ∈ entities_of (rel_step st (S (length pre)) qa) →
  x ∈ nodes (rel_build (pre ++ qa :: post)).
Proof.
  intros st Hx. rewrite build_graph_with_relations_eq.
  destruct (add_missing_nodes_spec
              (entities_of (for_enumerate rel_step initial_state 1 (pre ++ qa :: post)))
              (graph_of (for_enumerate rel_step initial_state 1 (pre ++ qa :: post))))
    as [-> _].
  apply elem_of_union. right. rewrite for_enumerate_unit.
  apply (for_enumerate_invariant (λ s, x ∈ entities_of s)); [|done].
  intros s idx qa' Hs. apply rel_step_entities. by left.
Qed.

End NodeFacts.

(** C9. In both variants, for every unit [qa] of the input (after the
    units [pre], before the units [post]), every mention that
    [extract_entities] returns for the unit has its normalized label among
    the nodes of the graph assembled from all units, whether or not any
    edge was added for it. *)
Theorem every_entity_is_a_node (synonym_map : gmap string string)
    (nlp : nat → string → Doc) (findall : string → list string)
    (list_of_set : list Span → list Span)
    (pre : list (string * string)) (qa : string * string)
    (post : list (string * string)) (e : Span) :
  let unit_step := build_graph_unit synonym_map nlp findall list_of_set in
  let rel_step := build_relations_unit synonym_map nlp findall list_of_set in
  let found (calls : nat) :=
    (extract_entities nlp findall list_of_set (S calls) (text_block_of qa)).1 in
  (e ∈ found (calls_of (for_enumerate unit_step initial_state 1 pre)) →
   normalize_entity synonym_map (text e)
   ∈ nodes (build_graph synonym_map nlp findall list_of_set (pre ++ qa :: post)))
  ∧ (e ∈ found (calls_of (for_enumerate rel_step initial_state 1 pre)) →
     normalize_entity synonym_map (text e)
     ∈ nodes (build_graph_with_relations synonym_map nlp findall list_of_set
                (pre ++ qa :: post))).
Proof.
  intros unit_step rel_step found. split; intros He.
  - apply unit_entity_final, unit_step_entities. right.
    by apply extracted_label_in_ents_norm.
  - apply rel_unit_entity_final, rel_step_entities. right.
    by apply extracted_label_in_ents_norm.
Qed.

Lemma every_entity_is_a_node_witness :
  "Nokia" ∈ nodes (build_graph manual_synonyms Scenario.suppliers_nlp
                     Scenario.no_terms Scenario.set_order [Scenario.suppliers_unit])
  ∧ "Nokia" ∈ nodes (build_graph_with_relations manual_synonyms Scenario.suppliers_nlp
                       Scenario.no_terms Scenario.set_order [Scenario.suppliers_unit]).
Proof.
  pose proof (every_entity_is_a_node manual_synonyms Scenario.suppliers_nlp
                Scenario.no_terms Scenario.set_order [] Scenario.suppliers_unit []
                (Scenario.nokia 1)) as [H1 H2].
  assert (Scenario.nokia 1
          ∈ (extract_entities Scenario.suppliers_nlp Scenario.no_terms
               Scenario.set_order 1 (text_block_of Scenario.suppliers_unit)).1) as Hin.
  { apply (bool_decide_unpack _). vm_compute. exact I. }
  split; [exact (H1 Hin)|exact (H2 Hin)].
Defined.


Lemma strong_edge_at_threshold_witness :
  let G := build_graph manual_synonyms Scenario.suppliers_nlp Scenario.no_terms
             Scenario.set_order [Scenario.suppliers_unit] in
  dependency_distance (root (Scenario.siemens 1)) (root (Scenario.stuttgart 1)) = Some 3
  ∧ is_Some (adj G !! ("Siemens", "Stuttgart")).
Proof.
  assert (dependency_distance (root (Scenario.siemens 1)) (root (Scenario.stuttgart 1))
          = Some 3) as Hd.
  { vm_compute. reflexivity. }
  split; [exact Hd|].
  refine (proj1 (proj2 (proj2 (proj1 (strong_edge_at_threshold manual_synonyms
            Scenario.suppliers_nlp Scenario.no_terms Scenario.set_order []
            Scenario.suppliers_unit [] 0 3 (Scenario.siemens 1) (Scenario.stuttgart 1)
            _ _ _ _) Hd)))).
  - lia.
  - vm_compute. reflexivity.
  - vm_compute. reflexivity.
  - reflexivity.
Defined.

(** C6, as stated, fails. In the unit ("What happened?", "Officials in
    Stuttgart report that Siemens moves to Stuttgart after talks in
    Stuttgart.") the mention "Siemens" and the second mention "Stuttgart"
    are two distinct mentions found in the same sentence, at dependency
    distance 3. The three mentions "Stuttgart" are merged by raw text
    before the pairs are formed, and the one kept is the last one listed:
    the third mention when the set is listed in the order of the text, the
    first mention when it is listed the other way round, both at distance
    5 from "Siemens". In neither case does the graph get an edge between
    "Siemens" and "Stuttgart". *)
Lemma strong_edge_lost_to_dedupe :
  let block := text_block_of Scenario.offices_unit in
  let found order :=
    (extract_entities Scenario.offices_nlp Scenario.no_terms order 1 block).1 in
  let kept order :=
    (unit_entities manual_synonyms Scenario.offices_nlp Scenario.no_terms order 1
       block).1.1 in
  let G order :=
    build_graph manual_synonyms Scenario.offices_nlp Scenario.no_terms order
      [Scenario.offices_unit] in
  Scenario.offices_siemens 1 ≠ Scenario.offices_stuttgart_near 1
  ∧ sent (Scenario.offices_siemens 1) = sent (Scenario.offices_stuttgart_near 1)
  ∧ dependency_distance (root (Scenario.offices_siemens 1))
      (root (Scenario.offices_stuttgart_near 1)) = Some 3
  ∧ normalize_entity manual_synonyms (text (Scenario.offices_siemens 1))
    = "Siemens"
  ∧ normalize_entity manual_synonyms (text (Scenario.offices_stuttgart_near 1))
    = "Stuttgart"
  ∧ found Scenario.set_order
    = [Scenario.offices_stuttgart_first 1; Scenario.offices_siemens 1;
       Scenario.offices_stuttgart_near 1; Scenario.offices_stuttgart_last 1]
  ∧ kept Scenario.set_order
    = [Scenario.offices_stuttgart_last 1; Scenario.offices_siemens 1]
  ∧ adj (G Scenario.set_order) !! ("Siemens", "Stuttgart") = None
  ∧ adj (G Scenario.set_order) !! ("Stuttgart", "Siemens") = None
  ∧ found Scenario.set_order_rev
    = [Scenario.offices_stuttgart_last 1; Scenario.offices_stuttgart_near 1;
       Scenario.offices_siemens 1; Scenario.offices_stuttgart_first 1]
  ∧ kept Scenario.set_order_rev
    = [Scenario.offices_stuttgart_first 1; Scenario.offices_siemens 1]
  ∧ adj (G Scenario.set_order_rev) !! ("Siemens", "Stuttgart") = None
  ∧ adj (G Scenario.set_order_rev) !! ("Stuttgart", "Siemens") = None.
Proof.
  intros block found kept G. split; [discriminate|].
  repeat split; vm_compute; reflexivity.
Qed.

Example suppliers_graph :
  let G := build_graph manual_synonyms Scenario.suppliers_nlp Scenario.no_terms
             Scenario.set_order [Scenario.suppliers_unit] in
  adj G !! ("Siemens", "Stuttgart") = Some (Strong 3 1)
  ∧ adj G !! ("Munich", "Bosch") = None
  ∧ adj G !! ("Siemens", "Nokia") = Some (Weak 1).
Proof. vm_compute. done. Qed.


(** ** The dependency-distance search ends *)

Section SearchTerminates.

(** The document the search runs in, and its tokens. *)
Variable p : Parse.

Let universe : list Token := token_at p <$> seq 0 (length (parse_rows p)).

(** The tokens of the document that are not visited yet. *)
Let fresh (visited : list Token) : nat :=
  length (filter (λ t, t ∉ visited) universe).

Lemma neighbors_doc (node n : Token) : n ∈ neighbors node → tok_doc n = tok_doc node.
Proof.
  unfold neighbors. destruct (_ !! _) as [r|]; [|by intros ?%elem_of_nil].
  rewrite elem_of_app, list_elem_of_fmap. intros [(i & -> & _)|Hn]; [done|].
  case_decide; [by apply elem_of_nil in Hn|].
  by apply list_elem_of_singleton in Hn as ->.
Qed.

Lemma neighbors_outside (node : Token) :
  tok_doc node = p → node ∉ universe → neighbors node = [].
Proof.
  intros Hdoc Hout. unfold neighbors.
  destruct (_ !! _) as [r|] eqn:Hrow; [|done]. exfalso. apply Hout.
  apply lookup_lt_Some in Hrow. rewrite Hdoc in Hrow.
  apply list_elem_of_fmap. exists (tok_i node).
  split; [by destruct node; simpl in *; subst|]. apply elem_of_seq. lia.
Qed.

Lemma expansions_pos depth visited node : 1 ≤ expansions depth visited node.
Proof. destruct depth; simpl; lia. Qed.

Lemma expansions_leaf depth visited node :
  neighbors node = [] → expansions depth visited node = 1.
Proof. intros Hn. destruct depth; simpl; [done|]. unfold unvisited. by rewrite Hn. Qed.

Lemma fresh_le visited : fresh visited ≤ length (parse_rows p).
Proof.
  unfold fresh. etrans; [apply length_filter|].
  unfold universe. by rewrite length_fmap, length_seq.
Qed.

Lemma fresh_cons_lt node visited :
  node ∈ universe → node ∉ visited → fresh (node :: visited) < fresh visited.
Proof.
  intros Hin Hnew. unfold fresh.
  rewrite <-(list_filter_filter_l (λ t, t ∉ node :: visited) (λ t, t ∉ visited)).
  - apply (length_filter_lt _ _ node).
    + by apply list_elem_of_filter.
    + intros Hn. apply Hn. by left.
  - intros t Ht Hv. apply Ht. by right.
Qed.

Lemma sum_list_with_ext {B} (f g : B → nat) (l : list B) :
  (∀ x, x ∈ l → f x = g x) → sum_list_with f l = sum_list_with g l.
Proof.
  induction l as [|x l IH]; simpl; [done|]. intros Hfg.
  rewrite (Hfg x) by (by left). rewrite IH; [done|]. intros y Hy. apply Hfg. by right.
Qed.

Lemma sum_list_with_filter_mono {B} (f g : B → nat) (P Q : B → Prop)
    `{!∀ x, Decision (P x)} `{!∀ x, Decision (Q x)} (l : list B) :
  (∀ x, P x → Q x) → (∀ x, f x ≤ g x) →
  sum_list_with f (filter P l) ≤ sum_list_with g (filter Q l).
Proof.
  intros HPQ Hfg. induction l as [|x l IH]; [done|].
  rewrite !filter_cons. destruct (decide (P x)) as [HP|HP].
  - rewrite decide_True by auto. simpl. specialize (Hfg x). lia.
  - destruct (decide (Q x)); simpl; lia.
Qed.

(** Past the number of fresh tokens the depth no longer matters. *)
Lemma expansions_stable d1 :
  ∀ d2 visited node,
    tok_doc node = p →
    (node ∈ universe → fresh (node :: visited) < d1 ∧ fresh (node :: visited) < d2) →
    expansions d1 visited node = expansions d2 visited node.
Proof.
  induction d1 as [|d1 IH]; intros d2 visited node Hdoc Hdepth.
  - destruct (decide (node ∈ universe)) as [Hin|Hout]; [apply Hdepth in Hin; lia|].
    by rewrite !expansions_leaf by by apply neighbors_outside.
  - destruct (decide (node ∈ universe)) as [Hin|Hout]; cycle 1.
    { by rewrite !expansions_leaf by by apply neighbors_outside. }
    destruct (Hdepth Hin) as [H1 H2]. destruct d2 as [|d2]; [lia|]. simpl. f_equal.
    apply sum_list_with_ext. intros n Hn.
    apply list_elem_of_filter in Hn as [Hnew Hn].
    apply IH; [by rewrite (neighbors_doc _ _ Hn)|]. intros Hnin.
    pose proof (fresh_cons_lt n (node :: visited) Hnin Hnew). lia.
Qed.

(** Visiting more tokens does not add expansions. *)
Lemma expansions_mono depth :
  ∀ visited visited' node,
    visited ⊆ visited' →
    expansions depth visited' node ≤ expansions depth visited node.
Proof.
  induction depth as [|depth IH]; intros visited visited' node Hsub; simpl; [done|].
  apply le_n_S. unfold unvisited. apply sum_list_with_filter_mono.
  - intros n Hn Hv. apply Hn. apply elem_of_cons in Hv as [->|Hv]; [by left|].
    right. by apply Hsub.
  - intros n. apply IH. intros t [->|Ht]%elem_of_cons; [by left|].
    right. by apply Hsub.
Qed.

Let depth0 : nat := 2 + length (parse_rows p).

(** The expansions still to come bound the iterations still to come. *)
Lemma bfs_enough_fuel (fuel : nat) :
  ∀ (queue : list (Token * nat)) (visited : list Token) (token2 : Token),
    Forall (λ entry, tok_doc entry.1 = p) queue →
    sum_list_with (λ entry, expansions depth0 visited entry.1) queue ≤ fuel →
    is_Some (bfs fuel queue visited token2).
Proof.
  induction fuel as [|fuel IH]; intros queue visited token2 Hdoc Hfuel.
  - destruct queue as [|[node dist] queue]; [done|].
    cbn [sum_list_with fst] in Hfuel.
    pose proof (expansions_pos depth0 visited node). lia.
  - destruct queue as [|[node dist] queue]; [done|]. cbn [bfs].
    case_decide; [done|]. apply Forall_cons in Hdoc as [Hnode Hdoc].
    cbn [fst] in Hnode. apply IH.
    + apply Forall_app. split; [done|]. apply Forall_fmap, Forall_forall.
      intros n [_ Hn]%list_elem_of_filter. simpl. by rewrite (neighbors_doc _ _ Hn).
    + rewrite sum_list_with_app. cbn [sum_list_with fst] in Hfuel.
      assert (sum_list_with (λ entry, expansions depth0 (node :: visited) entry.1) queue
              ≤ sum_list_with (λ entry, expansions depth0 visited entry.1) queue) as Hrest.
      { clear. induction queue as [|e queue IHq]; [done|]. cbn [sum_list_with].
        pose proof (expansions_mono depth0 visited (node :: visited) e.1) as Hm.
        specialize (Hm ltac:(intros t Ht; by right)). lia. }
      assert (sum_list_with (λ entry, expansions depth0 (node :: visited) entry.1)
                ((λ n, (n, S dist)) <$> unvisited (node :: visited) node)
              = sum_list_with (expansions (S (length (parse_rows p))) (node :: visited))
                  (unvisited (node :: visited) node)) as Hnew.
      { rewrite <-(sum_list_with_ext (expansions depth0 (node :: visited))).
        - generalize (unvisited (node :: visited) node). intros l.
          induction l as [|n l IHl]; [done|]. rewrite fmap_cons.
          cbn [sum_list_with fst]. by rewrite IHl.
        - intros n [Hnew Hn]%list_elem_of_filter.
          apply expansions_stable; [by rewrite (neighbors_doc _ _ Hn)|]. intros Hin.
          pose proof (fresh_cons_lt n (node :: visited) Hin Hnew).
          pose proof (fresh_le (node :: visited)). unfold depth0. lia. }
      assert (expansions depth0 visited node
              = S (sum_list_with (expansions (S (length (parse_rows p))) (node :: visited))
                     (unvisited (node :: visited) node))) as Hnode_eq by reflexivity.
      lia.
Qed.

End SearchTerminates.

(** The search from [token1] never uses up [bfs_fuel token1]: the loop of
    [dependency_distance] ends, and [dependency_distance] is its result. *)
Theorem bfs_fuel_enough (token1 token2 : Token) :
  bfs (bfs_fuel token1) [(token1, 0)] [] token2
  = Some (dependency_distance token1 token2).
Proof.
  unfold dependency_distance.
  destruct (bfs_enough_fuel (tok_doc token1) (bfs_fuel token1) [(token1, 0)] []
              token2) as [r Hr]; [by repeat constructor|..].
  - unfold bfs_fuel. cbn [sum_list_with fst]. lia.
  - by rewrite Hr.
Qed.

(** ** The dependency-distance search finds the shortest chain *)

Section SearchCorrect.

Variable token1 token2 : Token.

Lemma walk_avoiding_weaken visited visited' n m d :
  visited ⊆ visited' → walk_avoiding visited' n m d → walk_avoiding visited n m d.
Proof.
  intros Hsub. induction 1 as [|n n' m d Hn Hv _ IH]; [constructor|].
  apply (walk_step _ n n'); [done| |done]. intros Hin. by apply Hv, Hsub.
Qed.

Lemma walk_snoc n m m' d : walk n m d → m' ∈ neighbors m → walk n m' (S d).
Proof.
  intros Hw Hm'. induction Hw as [m|n n' m d Hn Hv _ IH].
  - apply (walk_step _ m m'); [done|by intros ?%elem_of_nil|constructor].
  - apply (walk_step _ n n'); [done|done|by apply IH].
Qed.

Lemma walk_doc visited n m d : walk_avoiding visited n m d → tok_doc m = tok_doc n.
Proof.
  induction 1 as [|n n' m d Hn _ _ IH]; [done|].
  by rewrite IH, (neighbors_doc _ _ Hn).
Qed.

(** Every distance the loop returns is the length of a chain from
    [token1]. *)
Lemma bfs_sound (fuel : nat) :
  ∀ queue visited d,
    Forall (λ entry, walk token1 entry.1 entry.2) queue →
    bfs fuel queue visited token2 = Some (Some d) →
    walk token1 token2 d.
Proof.
  induction fuel as [|fuel IH]; intros queue visited d Hq Hbfs.
  - by destruct queue as [|[node dist] queue].
  - destruct queue as [|[node dist] queue]; [done|]. cbn [bfs] in Hbfs.
    apply Forall_cons in Hq as [Hnode Hq]. cbn [fst snd] in Hnode.
    case_decide as Heq; [injection Hbfs as <-; by subst|].
    apply IH in Hbfs; [done|]. apply Forall_app. split; [done|].
    apply Forall_fmap, Forall_forall. intros n [_ Hn]%list_elem_of_filter.
    simpl. by apply (walk_snoc _ node).
Qed.

(** When [node] is marked, a chain that avoids the marked tokens either
    still avoids them or passes through [node], from where a shorter chain
    goes on. *)
Lemma walk_avoiding_mark visited node n d :
  node ≠ token2 → walk_avoiding visited n token2 d →
  walk_avoiding (node :: visited) n token2 d
  ∨ ∃ d', d' < d ∧ walk_avoiding (node :: visited) node token2 d'.
Proof.
  intros Hne. induction 1 as [m|n n' m d Hn Hv Hw IH]; [left; constructor|].
  destruct (IH Hne) as [Hleft|(d' & Hlt & Hright)].
  - destruct (decide (n' = node)) as [->|Hn'].
    + right. exists d. split; [lia|done].
    + left. apply (walk_step _ n n'); [done| |done].
      by intros [?|?]%elem_of_cons.
  - right. exists d'. split; [lia|done].
Qed.

(** A chain of length [bound] to [token2] that the queue can still follow
    makes the loop return a distance of at most [bound]. *)
Lemma bfs_minimal (bound fuel : nat) :
  ∀ queue visited r,
    queue_sorted queue →
    (∃ n d j, (n, d) ∈ queue ∧ walk_avoiding visited n token2 j ∧ d + j ≤ bound) →
    bfs fuel queue visited token2 = Some r →
    ∃ d, r = Some d ∧ d ≤ bound.
Proof.
  induction fuel as [|fuel IH]; intros queue visited r Hsorted Hwit Hbfs.
  - destruct queue as [|[node dist] queue]; [|done].
    destruct Hwit as (n & d & j & Hin & _). by apply elem_of_nil in Hin.
  - destruct queue as [|[node dist] queue].
    { destruct Hwit as (n & d & j & Hin & _). by apply elem_of_nil in Hin. }
    cbn [bfs] in Hbfs. apply StronglySorted_inv in Hsorted as [Hrest Hfront].
    rewrite Forall_forall in Hfront.
    destruct Hwit as (n & d & j & Hin & Hwalk & Hbound).
    assert (dist ≤ d) as Hmin.
    { apply elem_of_cons in Hin as [[= -> ->]|Hin]; [done|].
      destruct (Hfront _ Hin) as [Hlo _]. exact Hlo. }
    case_decide as Heq.
    { injection Hbfs as <-. exists dist. split; [done|lia]. }
    eapply IH; [| |exact Hbfs].
    + apply StronglySorted_app_2; [|done|].
      * intros e1 e2 He1 (x & -> & _)%list_elem_of_fmap.
        destruct (Hfront _ He1) as [Hlo Hhi]. simpl in *. lia.
      * generalize (unvisited (node :: visited) node). intros l.
        induction l as [|x l IHl]; [constructor|]. rewrite fmap_cons.
        constructor; [done|]. apply Forall_fmap, Forall_forall. intros y _. simpl. lia.
    + assert (∃ j', dist + j' ≤ bound
                    ∧ walk_avoiding (node :: visited) node token2 j'
              ∨ (n, d) ∈ queue ∧ walk_avoiding (node :: visited) n token2 j)
        as Hcases.
      { destruct (walk_avoiding_mark visited node n j Heq Hwalk)
          as [Hkeep|(j' & Hlt & Hthrough)].
        - apply elem_of_cons in Hin as [[= -> ->]|Hin].
          + exists j. left. by split.
          + exists 0. by right.
        - exists j'. left. split; [lia|done]. }
      destruct Hcases as (j' & [[Hb Hw]|[Hin' Hw]]).
      * inversion Hw as [|? n' ? j'' Hn' Hv' Hw']; subst; [done|].
        exists n', (S dist), j''. split; [|split; [done|lia]].
        apply elem_of_app. right. apply list_elem_of_fmap. exists n'.
        split; [done|]. by apply list_elem_of_filter.
      * exists n, d, j. split; [|by split]. apply elem_of_app. by left.
Qed.

End SearchCorrect.

(** X1. [dependency_distance] returns the length of a shortest chain of
    child and head links from the first token to the second: it returns
    [d] exactly when a chain of [d] links exists and no chain is shorter. *)
Theorem dependency_distance_shortest (token1 token2 : Token) (d : nat) :
  dependency_distance token1 token2 = Some d
  ↔ walk token1 token2 d ∧ ∀ d', walk token1 token2 d' → d ≤ d'.
Proof.
  pose proof (bfs_fuel_enough token1 token2) as Hbfs.
  assert (∀ d', walk token1 token2 d' →
                ∃ d0, dependency_distance token1 token2 = Some d0 ∧ d0 ≤ d') as Hmin.
  { intros d' Hw.
    apply (bfs_minimal token2 d' (bfs_fuel token1) [(token1, 0)] [] _
             ltac:(repeat constructor)
             ltac:(exists token1, 0, d'; split; [by left|by split]) Hbfs). }
  split.
  - intros Hd. rewrite Hd in Hbfs. split.
    + apply (bfs_sound token1 token2 (bfs_fuel token1) [(token1, 0)] [] _ ltac:(repeat constructor) Hbfs).
    + intros d' (d0 & Hd0 & Hle)%Hmin. congruence.
  - intros [Hw Hshort]. destruct (Hmin d Hw) as (d0 & Hd0 & Hle). rewrite Hd0.
    rewrite Hd0 in Hbfs.
    pose proof (bfs_sound token1 token2 (bfs_fuel token1) [(token1, 0)] [] _ ltac:(repeat constructor) Hbfs) as Hw0.
    apply Hshort in Hw0. f_equal. lia.
Qed.

(** X2. [dependency_distance] returns [None] exactly when no chain of
    child and head links leads from the first token to the second; in
    particular for tokens of two different documents. *)
Theorem dependency_distance_unreachable (token1 token2 : Token) :
  (dependency_distance token1 token2 = None ↔ ∀ d, ¬ walk token1 token2 d)
  ∧ (tok_doc token1 ≠ tok_doc token2 → dependency_distance token1 token2 = None).
Proof.
  assert (dependency_distance token1 token2 = None ↔ ∀ d, ¬ walk token1 token2 d)
    as Hiff.
  { split.
    - intros Hnone d Hw.
      destruct (dependency_distance token1 token2) as [d0|] eqn:Hd; [done|].
      pose proof (bfs_fuel_enough token1 token2) as Hbfs. rewrite Hd in Hbfs.
      destruct (bfs_minimal token2 d (bfs_fuel token1) [(token1, 0)] [] _
                  ltac:(repeat constructor)
                  ltac:(exists token1, 0, d; split; [by left|by split]) Hbfs)
        as (d1 & [=] & _).
    - intros Hno. destruct (dependency_distance token1 token2) as [d0|] eqn:Hd; [|done].
      pose proof (bfs_fuel_enough token1 token2) as Hbfs. rewrite Hd in Hbfs.
      pose proof (bfs_sound token1 token2 (bfs_fuel token1) [(token1, 0)] [] _
                    ltac:(repeat constructor) Hbfs) as Hw.
      by apply Hno in Hw. }
  split; [done|]. intros Hdoc. apply Hiff. intros d Hw.
  apply walk_doc in Hw. congruence.
Qed.

(** ** More on the normalizer *)

Section NormalizerMore.
Import PyStr PyStrFacts.

Lemma is_space_lower_char (c : ascii) : is_space (lower_char c) = is_space c.
Proof. destruct c as [[] [] [] [] [] [] [] []]; vm_compute; reflexivity. Qed.

Lemma last_char_lower (s : string) : last_char (lower s) = lower_char <$> last_char s.
Proof.
  induction s as [|c s IH]; [done|]. simpl. rewrite IH.
  by destruct s as [|c' s'].
Qed.

Lemma last_char_strip_article (s : string) (c : ascii) :
  last_char (strip_article s) = Some c → last_char s = Some c.
Proof.
  destruct s as [|a1 [|a2 [|a3 [|a4 rest]]]]; try done.
  unfold strip_article. destruct (_ && _); [|done].
  intros Hrest. by destruct rest.
Qed.

(** The key the normalizer looks up is usable. *)
Lemma lookup_key_usable (raw : string) :
  usable_key (lower (strip_article (strip raw))).
Proof.
  split; [apply lower_idemp|]. apply rstrip_id. intros c Hc.
  rewrite last_char_lower in Hc.
  destruct (last_char (strip_article (strip raw))) as [c'|] eqn:Hlast; [|done].
  injection Hc as <-. rewrite is_space_lower_char.
  apply last_char_strip_article in Hlast.
  destruct (strip_spec raw) as (_ & _ & _ & _ & _ & _ & Hend). by apply Hend.
Qed.

Lemma lower_strip_article (s : string) :
  lower (strip_article s) = strip_article (lower s).
Proof.
  destruct s as [|a1 [|a2 [|a3 [|a4 rest]]]]; try done.
  unfold strip_article, ci_eq. cbn [lower]. rewrite !lower_char_idemp.
  rewrite (bool_decide_ext (lower_char a4 = " "%char) (a4 = " "%char))
    by apply lower_char_space.
  by destruct (_ && _).
Qed.

End NormalizerMore.

(** X3. Only the entries of the synonym map whose keys are lower-case and
    do not end in whitespace can take part in a normalization: with all
    other entries removed, [normalize_entity] returns the same label for
    every text. *)
Theorem normalize_uses_usable_entries (m : gmap string string) (raw : string) :
  normalize_entity m raw = normalize_entity (usable_entries m) raw.
Proof.
  rewrite !normalize_entity_unfold. f_equal. unfold usable_entries.
  destruct (m !! _) as [v|] eqn:Hm.
  - symmetry. apply map_lookup_filter_Some. split; [done|]. apply lookup_key_usable.
  - symmetry. apply map_lookup_filter_None. by left.
Qed.

(** X4. The lookup is blind to letter case: when two texts are equal up to
    surrounding whitespace and letter case, their labels are equal up to
    letter case, and equal when the synonym map has an entry for them. *)
Theorem normalize_ignores_case (m : gmap string string) (a b : string) :
  PyStr.lower (PyStr.strip a) = PyStr.lower (PyStr.strip b) →
  PyStr.lower (normalize_entity m a) = PyStr.lower (normalize_entity m b)
  ∧ (is_Some (m !! PyStr.lower (strip_article (PyStr.strip a))) →
     normalize_entity m a = normalize_entity m b).
Proof.
  intros Hab.
  assert (PyStr.lower (strip_article (PyStr.strip a))
          = PyStr.lower (strip_article (PyStr.strip b))) as Hkey.
  { by rewrite !lower_strip_article, Hab. }
  rewrite !normalize_entity_unfold, <-Hkey.
  destruct (m !! _) as [v|]; simpl; [done|]. split; [done|]. by intros [? [=]].
Qed.

Lemma normalize_ignores_case_witness :
  normalize_entity manual_synonyms " the us" = normalize_entity manual_synonyms "The US ".
Proof.
  refine (proj2 (normalize_ignores_case manual_synonyms " the us" "The US " _) _).
  - vm_compute. reflexivity.
  - exists "USA". vm_compute. reflexivity.
Defined.

(** ** More on the deduplication *)

Section DedupeMore.

Context {V : Type}.

Lemma dict_setitem_fresh (k : string) (v : V) (d : list (string * V)) :
  k ∉ d.*1 → dict_setitem k v d = (d ++ [(k, v)])%list.
Proof.
  induction d as [|[k' v'] d IH]; csimpl; [done|]. intros Hk.
  rewrite decide_False by (intros ->; apply Hk; by left).
  rewrite IH; [done|]. intros Hin. apply Hk. by right.
Qed.

Lemma dict_setitem_length (k : string) (v : V) (d : list (string * V)) :
  length d ≤ length (dict_setitem k v d) ≤ S (length d).
Proof.
  induction d as [|[k' v'] d IH]; simpl; [lia|]. case_decide; simpl; lia.
Qed.

End DedupeMore.

Lemma dedupe_by_text_distinct (ents : list Span) :
  NoDup (text_key <$> ents) → dedupe_by_text ents = ents.
Proof.
  unfold dedupe_by_text. intros Hnd.
  assert (foldl (λ d ent, dict_setitem (PyStr.strip (text ent)) ent d) [] ents
          = (λ ent, (text_key ent, ent)) <$> ents) as ->.
  { induction ents as [|e ents IH] using rev_ind; [done|].
    rewrite fmap_app in Hnd. apply NoDup_app in Hnd as (Hnd & Hfresh & _).
    rewrite foldl_snoc, IH by done. rewrite fmap_app. apply dict_setitem_fresh.
    rewrite <-list_fmap_compose. intros Hin. apply (Hfresh _ Hin). by left. }
  rewrite <-list_fmap_compose. apply list_fmap_id.
Qed.

(** X5. Deduplication never makes the list longer, leaves a list of
    mentions with pairwise different texts as it is, and so changes nothing
    when applied a second time. *)
Theorem dedupe_by_text_idempotent (ents : list Span) :
  length (dedupe_by_text ents) ≤ length ents
  ∧ (NoDup (text_key <$> ents) → dedupe_by_text ents = ents)
  ∧ dedupe_by_text (dedupe_by_text ents) = dedupe_by_text ents.
Proof.
  split; [|split].
  - unfold dedupe_by_text. rewrite length_fmap.
    induction ents as [|e ents IH] using rev_ind; [done|].
    rewrite foldl_snoc, length_app. simpl.
    pose proof (dict_setitem_length (PyStr.strip (text e)) e
                  (foldl (λ d ent, dict_setitem (PyStr.strip (text ent)) ent d) [] ents)).
    lia.
  - apply dedupe_by_text_distinct.
  - apply dedupe_by_text_distinct, dedupe_by_text_NoDup.
Qed.

Lemma dedupe_by_text_idempotent_witness :
  dedupe_by_text [Scenario.user 1; Scenario.used_again 1]
  = [Scenario.user 1; Scenario.used_again 1].
Proof.
  refine (proj1 (proj2 (dedupe_by_text_idempotent
            [Scenario.user 1; Scenario.used_again 1])) _).
  apply (bool_decide_unpack _). vm_compute. exact I.
Defined.

(** ** What the undirected graph holds *)

Section CooccurrenceMore.

Variable synonym_map : gmap string string.
Variable nlp : nat → string → Doc.
Variable findall : string → list string.
Variable list_of_set : list Span → list Span.

Local Abbreviation normalize := (normalize_entity synonym_map).
Local Abbreviation unit_ents := (unit_entities synonym_map nlp findall list_of_set).
Local Abbreviation unit_step := (build_graph_unit synonym_map nlp findall list_of_set).
Local Abbreviation build := (build_graph synonym_map nlp findall list_of_set).

(** The state in which the unit after [pre] is processed, and its entities. *)
Local Abbreviation state_after pre := (for_enumerate unit_step initial_state 1 pre).
Local Abbreviation ents_of_unit pre qa :=
  (unit_ents (S (calls_of (state_after pre))) (text_block_of qa)).

Lemma for_enumerate_invariant_from {St} (P : St → Prop)
    (f : St → nat → string * string → St) st start l :
  (∀ s idx qa, start ≤ idx → P s → P (f s idx qa)) → P st →
  P (for_enumerate f st start l).
Proof.
  revert st start. induction l as [|x l IH]; intros st start Hf Hst; simpl; [done|].
  apply IH; [|by apply Hf]. intros s idx qa Hidx. apply Hf. lia.
Qed.

Lemma build_graph_adj qa_list :
  adj (build qa_list) = adj (graph_of (state_after qa_list)).
Proof. rewrite build_graph_eq. apply add_missing_nodes_spec. Qed.

Lemma build_graph_nodes qa_list :
  nodes (build qa_list)
  = nodes (graph_of (state_after qa_list)) ∪ entities_of (state_after qa_list).
Proof. rewrite build_graph_eq. apply add_missing_nodes_spec. Qed.

Lemma state_after_snoc pre qa :
  state_after (pre ++ [qa]) = unit_step (state_after pre) (S (length pre)) qa.
Proof. by rewrite for_enumerate_unit. Qed.

(** One step of the double loop: an entry of the graph afterwards was there
    before or is what the step wrote. *)
Lemma cooccurrence_step_inv idx ents_list ents_norm (G : Graph Title) ij u v t :
  ij.1 < ij.2 →
  adj (cooccurrence_step idx ents_list ents_norm G ij) !! (u, v) = Some t →
  adj G !! (u, v) = Some t ∨ justified ents_list ents_norm idx u v t.
Proof.
  intros Hij. unfold cooccurrence_step.
  destruct (ents_list !! ij.1) as [ei|] eqn:Hi; [|by left].
  destruct (ents_list !! ij.2) as [ej|] eqn:Hj; [|by left].
  destruct (ents_norm !! ij.1) as [ni|] eqn:Hni; [|by left].
  destruct (ents_norm !! ij.2) as [nj|] eqn:Hnj; [|by left].
  assert (∀ t', (sent ei ≠ sent ej ∧ t' = Weak idx
                 ∨ sent ei = sent ej ∧ t' = Strong MAX_DEP_DISTANCE idx
                   ∧ ∃ d, dependency_distance (root ei) (root ej) = Some d
                          ∧ d ≤ MAX_DEP_DISTANCE) →
               adj (Graph_add_edge ni nj t' G) !! (u, v) = Some t →
               adj G !! (u, v) = Some t ∨ justified ents_list ents_norm idx u v t)
    as Hadd.
  { intros t' Hwhy. rewrite Graph_add_edge_adj.
    repeat case_decide; try (by left); intros [= <-]; right;
      exists ij.1, ij.2, ei, ej, ni, nj; repeat split; auto. }
  case_decide as Hsent.
  - destruct (within_max _) eqn:Hw; [|by left]. apply Hadd. right.
    split; [done|]. split; [done|]. by apply within_max_true in Hw.
  - apply Hadd. by left.
Qed.

Lemma cooccurrence_loop_inv idx ents_list ents_norm (G : Graph Title) pairs u v t :
  Forall (λ ij : nat * nat, ij.1 < ij.2) pairs →
  adj (foldl (cooccurrence_step idx ents_list ents_norm) G pairs) !! (u, v) = Some t →
  adj G !! (u, v) = Some t ∨ justified ents_list ents_norm idx u v t.
Proof.
  induction pairs as [|ij pairs IH] using rev_ind; [by left|].
  intros [Hpairs [Hij _]%Forall_cons]%Forall_app. rewrite foldl_snoc.
  intros [Hold|Hnew]%cooccurrence_step_inv; [by apply IH|by right|done].
Qed.

Lemma index_pairs_ordered n : Forall (λ ij : nat * nat, ij.1 < ij.2) (index_pairs n).
Proof.
  apply Forall_forall. intros [i j] Hin%index_pairs_elem. simpl. lia.
Qed.

(** Whatever a loop of the unit [idx] writes carries the index [idx]. *)
Lemma cooccurrence_step_idx idx ents_list ents_norm (G : Graph Title) ij p k :
  k ≤ idx →
  (∃ t, adj G !! p = Some t ∧ k ≤ title_idx t) →
  ∃ t, adj (cooccurrence_step idx ents_list ents_norm G ij) !! p = Some t
       ∧ k ≤ title_idx t.
Proof.
  intros Hk (t & Ht & Hidx). unfold cooccurrence_step.
  repeat (case_match; try by exists t); rewrite Graph_add_edge_adj;
    repeat case_decide; eauto.
Qed.

Lemma unit_step_idx (st : build_state Title) idx qa p k :
  k ≤ idx →
  (∃ t, adj (graph_of st) !! p = Some t ∧ k ≤ title_idx t) →
  ∃ t, adj (graph_of (unit_step st idx qa)) !! p = Some t ∧ k ≤ title_idx t.
Proof.
  intros Hk Hp. rewrite build_graph_unit_eq. simpl. unfold graph_of at 1. simpl.
  apply (foldl_invariant (λ G, ∃ t, adj G !! p = Some t ∧ k ≤ title_idx t)); [|done].
  intros G ij. by apply cooccurrence_step_idx.
Qed.

(** A justified title is written by the loop of its unit. *)
Lemma cooccurrence_loop_writes idx ents_list ents_norm (G : Graph Title) u v t0 :
  length ents_norm = length ents_list →
  justified ents_list ents_norm idx u v t0 →
  ∃ t, adj (foldl (cooccurrence_step idx ents_list ents_norm) G
              (index_pairs (length ents_norm))) !! (u, v) = Some t
       ∧ idx ≤ title_idx t.
Proof.
  intros Hlen (i & j & ei & ej & ni & nj & Hij & Hi & Hj & Hni & Hnj & Huv & Hwhy).
  assert ((i, j) ∈ index_pairs (length ents_norm)) as Hin.
  { apply index_pairs_elem. apply lookup_lt_Some in Hnj. lia. }
  apply list_elem_of_split in Hin as (l1 & l2 & ->). rewrite foldl_app. cbn [foldl].
  apply (foldl_invariant (λ G, ∃ t, adj G !! (u, v) = Some t ∧ idx ≤ title_idx t)).
  { intros G' ij. by apply cooccurrence_step_idx. }
  unfold cooccurrence_step. simpl. rewrite Hi, Hj, Hni, Hnj.
  destruct Hwhy as [[Hsent ->]|(Hsent & -> & d & Hd & Hle)].
  - rewrite decide_False by done. exists (Weak idx). split; [|done].
    rewrite Graph_add_edge_adj. destruct Huv as [-> | ->]; repeat case_decide; done.
  - rewrite decide_True by done. rewrite (proj2 (within_max_true _)) by eauto.
    exists (Strong MAX_DEP_DISTANCE idx). split; [|done].
    rewrite Graph_add_edge_adj. destruct Huv as [-> | ->]; repeat case_decide; done.
Qed.

End CooccurrenceMore.

(** X6. Every edge of the graph that [build_graph] assembles is justified
    by the unit its title names: the index in the title is the 1-based
    position of a unit of the input, and that unit has two deduplicated
    mentions with the two labels, in different sentences for a weak title,
    in one sentence at a dependency distance of at most 3 for a strong
    one. *)
Theorem cooccurrence_edge_is_justified (synonym_map : gmap string string)
    (nlp : nat → string → Doc) (findall : string → list string)
    (list_of_set : list Span → list Span)
    (qa_list : list (string * string)) (u v : string) (t : Title) :
  let unit_step := build_graph_unit synonym_map nlp findall list_of_set in
  adj (build_graph synonym_map nlp findall list_of_set qa_list) !! (u, v) = Some t →
  ∃ pre qa post,
    qa_list = (pre ++ qa :: post)%list
    ∧ title_idx t = S (length pre)
    ∧ let r := unit_entities synonym_map nlp findall list_of_set
                 (S (calls_of (for_enumerate unit_step initial_state 1 pre)))
                 (text_block_of qa) in
      justified r.1.1 r.1.2 (S (length pre)) u v t.
Proof.
  intros unit_step. rewrite build_graph_adj.
  induction qa_list as [|qa qa_list IH] using rev_ind; [done|].
  rewrite state_after_snoc, build_graph_unit_eq. simpl. unfold graph_of at 1. simpl.
  intros [Hold|Hnew]%cooccurrence_loop_inv; [| |apply index_pairs_ordered].
  - destruct (IH Hold) as (pre & qa' & post & -> & Hidx & Hj).
    exists pre, qa', (post ++ [qa])%list. split; [by rewrite <-app_assoc|]. done.
  - exists qa_list, qa, []. split; [done|]. split; [|done].
    destruct Hnew as (? & ? & ? & ? & ? & ? & _ & _ & _ & _ & _ & _ & Hwhy).
    by destruct Hwhy as [[_ ->]|(_ & -> & _)].
Qed.

Lemma cooccurrence_edge_is_justified_witness :
  ∃ pre qa post,
    [Scenario.suppliers_unit] = (pre ++ qa :: post)%list
    ∧ title_idx (Strong 3 1) = S (length pre)
    ∧ justified
        (unit_entities manual_synonyms Scenario.suppliers_nlp Scenario.no_terms
           Scenario.set_order
           (S (calls_of (for_enumerate
                           (build_graph_unit manual_synonyms Scenario.suppliers_nlp
                              Scenario.no_terms Scenario.set_order)
                           initial_state 1 pre)))
           (text_block_of qa)).1.1
        (unit_entities manual_synonyms Scenario.suppliers_nlp Scenario.no_terms
           Scenario.set_order
           (S (calls_of (for_enumerate
                           (build_graph_unit manual_synonyms Scenario.suppliers_nlp
                              Scenario.no_terms Scenario.set_order)
                           initial_state 1 pre)))
           (text_block_of qa)).1.2
        (S (length pre)) "Siemens" "Stuttgart" (Strong 3 1).
Proof.
  apply (cooccurrence_edge_is_justified manual_synonyms Scenario.suppliers_nlp
           Scenario.no_terms Scenario.set_order [Scenario.suppliers_unit]
           "Siemens" "Stuttgart" (Strong 3 1)).
  vm_compute. reflexivity.
Defined.

(** X7. Last write wins, across units: when a unit justifies some title
    between two labels, the graph that [build_graph] assembles has an edge
    between them, and the title it carries names that unit or a later
    one. *)
Theorem cooccurrence_title_names_last_unit (synonym_map : gmap string string)
    (nlp : nat → string → Doc) (findall : string → list string)
    (list_of_set : list Span → list Span)
    (pre : list (string * string)) (qa : string * string)
    (post : list (string * string)) (u v : string) (t0 : Title) :
  let unit_step := build_graph_unit synonym_map nlp findall list_of_set in
  let r := unit_entities synonym_map nlp findall list_of_set
             (S (calls_of (for_enumerate unit_step initial_state 1 pre)))
             (text_block_of qa) in
  justified r.1.1 r.1.2 (S (length pre)) u v t0 →
  ∃ t, adj (build_graph synonym_map nlp findall list_of_set (pre ++ qa :: post))
         !! (u, v) = Some t
       ∧ S (length pre) ≤ title_idx t.
Proof.
  intros unit_step r Hj. rewrite build_graph_adj, for_enumerate_unit.
  apply (for_enumerate_invariant_from
           (λ s, ∃ t, adj (graph_of s) !! (u, v) = Some t ∧ S (length pre) ≤ title_idx t)).
  - intros s idx qa' Hidx Hs. apply unit_step_idx; [lia|done].
  - rewrite build_graph_unit_eq. simpl. unfold graph_of at 1. simpl.
    eapply cooccurrence_loop_writes; [|exact Hj]. apply unit_ents_length.
Qed.

Lemma cooccurrence_title_names_last_unit_witness :
  ∃ t, adj (build_graph manual_synonyms Scenario.suppliers_nlp Scenario.no_terms
              Scenario.set_order [Scenario.suppliers_unit])
         !! ("Nokia", "Siemens") = Some t
       ∧ 1 ≤ title_idx t.
Proof.
  apply (cooccurrence_title_names_last_unit manual_synonyms Scenario.suppliers_nlp
           Scenario.no_terms Scenario.set_order [] Scenario.suppliers_unit []
           "Nokia" "Siemens" (Weak 1)).
  exists 0, 4, (Scenario.siemens 1), (Scenario.nokia 1), "Siemens", "Nokia".
  split; [lia|]. repeat (split; [vm_compute; reflexivity|]).
  split; [by right|]. left. split; [discriminate|reflexivity].
Defined.

(** X8. The nodes of the graph that [build_graph] assembles are exactly
    the normalized labels of the deduplicated mentions of its units: the
    undirected graph has no node that is not such a label. *)
Theorem cooccurrence_nodes_are_labels (synonym_map : gmap string string)
    (nlp : nat → string → Doc) (findall : string → list string)
    (list_of_set : list Span → list Span)
    (qa_list : list (string * string)) (u : string) :
  let unit_step := build_graph_unit synonym_map nlp findall list_of_set in
  u ∈ nodes (build_graph synonym_map nlp findall list_of_set qa_list)
  ↔ ∃ pre qa post,
      qa_list = (pre ++ qa :: post)%list
      ∧ u ∈ (unit_entities synonym_map nlp findall list_of_set
               (S (calls_of (for_enumerate unit_step initial_state 1 pre)))
               (text_block_of qa)).1.2.
Proof.
  intros unit_step. subst unit_step. rewrite build_graph_nodes.
  assert (∀ l, nodes (graph_of (for_enumerate (build_graph_unit synonym_map nlp findall list_of_set) initial_state 1 l))
               ⊆ entities_of (for_enumerate (build_graph_unit synonym_map nlp findall list_of_set) initial_state 1 l)) as Hsub.
  { intros l. induction l as [|qa l IH] using rev_ind; [done|].
    rewrite state_after_snoc. intros x Hx. apply unit_step_entities.
    revert Hx. rewrite build_graph_unit_eq. simpl. unfold graph_of at 1. simpl.
    match goal with |- _ → ?Q' => set (Q := Q') end.
    apply (foldl_invariant (λ G, x ∈ nodes G → Q)).
    - intros G ij HG. unfold cooccurrence_step.
      destruct (_ !! ij.1) as [ei|]; [|done]. destruct (_ !! ij.2) as [ej|]; [|done].
      destruct (_ !! ij.1) as [ni|] eqn:Hni; [|done].
      destruct (_ !! ij.2) as [nj|] eqn:Hnj; [|done].
      apply list_elem_of_lookup_2 in Hni, Hnj.
      assert (∀ t, x ∈ nodes (Graph_add_edge ni nj t G) → Q) as Hadd.
      { intros t. simpl. rewrite !elem_of_union, !elem_of_singleton.
        intros [[-> | ->]|Hx]; [by right|by right|by apply HG]. }
      repeat case_match; solve [done | apply Hadd].
    - intros Hx. left. by apply IH. }
  split.
  - intros Hu. assert (u ∈ entities_of (for_enumerate (build_graph_unit synonym_map nlp findall list_of_set) initial_state 1 qa_list))
      as Hin.
    { apply elem_of_union in Hu as [Hu|Hu]; [by apply Hsub|done]. }
    clear Hu. induction qa_list as [|qa qa_list IH] using rev_ind.
    { by apply not_elem_of_empty in Hin. }
    rewrite state_after_snoc in Hin. apply unit_step_entities in Hin as [Hin|Hin].
    + destruct (IH Hin) as (pre & qa' & post & -> & Hu).
      exists pre, qa', (post ++ [qa])%list. split; [by rewrite <-app_assoc|done].
    + by exists qa_list, qa, [].
  - intros (pre & qa & post & -> & Hu). apply elem_of_union. right.
    rewrite for_enumerate_unit.
    apply (for_enumerate_invariant (λ s, u ∈ entities_of s)).
    + intros s idx qa' Hs. apply unit_step_entities. by left.
    + apply unit_step_entities. by right.
Qed.

(** ** What the directed graph holds *)

Section RelationMore.

Variable synonym_map : gmap string string.

Local Abbreviation normalize := (normalize_entity synonym_map).
Local Abbreviation add_rel := (add_relation synonym_map).

Lemma weak_pass_preserves ents_all ents_norm (G : Graph string) pairs p rel :
  adj G !! p = Some rel →
  adj (foldl (weak_step ents_all ents_norm) G pairs) !! p = Some rel.
Proof.
  intros Hp. apply (foldl_invariant (λ G', adj G' !! p = Some rel)); [|done].
  intros. by apply weak_step_preserves.
Qed.

Lemma weak_pass_new ents_all ents_norm (G : Graph string) pairs p rel :
  adj (foldl (weak_step ents_all ents_norm) G pairs) !! p = Some rel →
  adj G !! p = Some rel ∨ adj G !! p = None ∧ rel = "co_occurs".
Proof.
  induction pairs as [|ij pairs IH] using rev_ind; [by left|].
  rewrite foldl_snoc. intros [Hold|[Hnone ->]]%weak_step_new; [by apply IH|].
  destruct (adj G !! p) as [r|] eqn:HG; [|by right].
  rewrite (weak_pass_preserves _ _ _ _ _ _ HG) in Hnone. done.
Qed.

Lemma relation_label_in_table (sent : Sentence) t1 rel t2 :
  (t1, rel, t2) ∈ extract_relations_in_sentence sent → rel ∈ EDGE_LABELS.
Proof.
  intros (_ & verbs & _ & _ & _ & _ & _ & _ & Hpat & _)%extract_relations_elem.
  apply elem_of_app. left. apply list_elem_of_fmap. by exists (rel, verbs).
Qed.

End RelationMore.

(** X9. In the directed variant, after the weak-edge pass of a unit every
    two deduplicated mentions at positions [i < j] that lie in different
    sentences are linked from the first label to the second: by the label
    the edge had before the pass, when there was one, and by [co_occurs]
    otherwise. *)
Theorem weak_pass_links_every_pair (ents_all : list Span) (ents_norm : list string)
    (G : Graph string) (i j : nat) (ei ej : Span) (ni nj : string) :
  i < j →
  ents_all !! i = Some ei → ents_all !! j = Some ej →
  ents_norm !! i = Some ni → ents_norm !! j = Some nj →
  sent ei ≠ sent ej →
  adj (weak_pass ents_all ents_norm G) !! (ni, nj)
  = Some (default "co_occurs" (adj G !! (ni, nj))).
Proof.
  intros Hij Hi Hj Hni Hnj Hsent. unfold weak_pass.
  assert ((i, j) ∈ index_pairs (length ents_norm)) as Hin.
  { apply index_pairs_elem. apply lookup_lt_Some in Hnj. lia. }
  apply list_elem_of_split in Hin as (l1 & l2 & ->). rewrite foldl_app. cbn [foldl].
  apply weak_pass_preserves. unfold weak_step at 1. simpl.
  rewrite Hi, Hj, Hni, Hnj. rewrite decide_True by done.
  destruct (has_edge _ ni nj) eqn:Hedge.
  - apply bool_decide_eq_true in Hedge as [rel Hrel]. rewrite Hrel.
    apply weak_pass_new in Hrel as [-> |[-> ->]]; done.
  - apply has_edge_false in Hedge. rewrite DiGraph_add_edge_adj, decide_True by done.
    destruct (adj G !! (ni, nj)) as [r|] eqn:HG; [|done].
    by rewrite (weak_pass_preserves _ _ _ _ _ _ HG) in Hedge.
Qed.

Lemma weak_pass_links_every_pair_witness :
  let r := unit_entities manual_synonyms Scenario.suppliers_nlp Scenario.no_terms
             Scenario.set_order 1 (text_block_of Scenario.suppliers_unit) in
  adj (weak_pass r.1.1 r.1.2 empty_graph) !! ("Siemens", "Nokia") = Some "co_occurs".
Proof.
  intros r.
  apply (weak_pass_links_every_pair r.1.1 r.1.2 empty_graph 0 4
           (Scenario.siemens 1) (Scenario.nokia 1) "Siemens" "Nokia").
  - lia.
  - vm_compute. reflexivity.
  - vm_compute. reflexivity.
  - vm_compute. reflexivity.
  - vm_compute. reflexivity.
  - discriminate.
Defined.

(** X10. Last write wins in the sentence pass: after the pass the edge
    between two labels carries the kind of the last triple of the document,
    in the order sentence, token, table entry, entity pair, whose normalized
    texts are these labels; an edge that no triple touches keeps what it
    had. *)
Theorem relation_pass_last_write (synonym_map : gmap string string) (doc : Doc)
    (G : Graph string) (u v : string) :
  adj (relation_pass synonym_map doc G) !! (u, v)
  = match last (filter (λ t : string * string * string,
                          (normalize_entity synonym_map t.1.1,
                           normalize_entity synonym_map t.2) = (u, v))
                       (sentence_triples doc)) with
    | Some t => Some t.1.2
    | None => adj G !! (u, v)
    end.
Proof.
  rewrite relation_pass_flat. fold (sentence_triples doc).
  induction (sentence_triples doc) as [|[[t1 rel] t2] triples IH] using rev_ind; [done|].
  rewrite foldl_snoc, add_relation_adj, filter_app, filter_cons, filter_nil. simpl.
  destruct (decide (_ = (u, v))) as [Heq|Hne].
  - rewrite decide_True by done. by rewrite last_snoc.
  - rewrite decide_False by done. by rewrite app_nil_r.
Qed.

(** X11. Every edge of the graph that [build_graph_with_relations]
    assembles carries one of six labels: a relation kind of
    [RELATION_PATTERNS] or [co_occurs]. *)
Theorem relation_labels_vocabulary (synonym_map : gmap string string)
    (nlp : nat → string → Doc) (findall : string → list string)
    (list_of_set : list Span → list Span)
    (qa_list : list (string * string)) (u v rel : string) :
  adj (build_graph_with_relations synonym_map nlp findall list_of_set qa_list)
    !! (u, v) = Some rel →
  rel ∈ ["is_a"; "regulates"; "uses"; "based_on"; "part_of"; "co_occurs"].
Proof.
  change ["is_a"; "regulates"; "uses"; "based_on"; "part_of"; "co_occurs"]
    with EDGE_LABELS.
  rewrite build_graph_with_relations_eq.
  destruct (add_missing_nodes_spec
      (entities_of (for_enumerate
         (build_relations_unit synonym_map nlp findall list_of_set)
         initial_state 1 qa_list))
      (graph_of (for_enumerate
         (build_relations_unit synonym_map nlp findall list_of_set)
         initial_state 1 qa_list))) as [_ ->].
  revert u v rel.
  apply (for_enumerate_invariant
           (λ s : build_state string,
              ∀ u v rel, adj (graph_of s) !! (u, v) = Some rel → rel ∈ EDGE_LABELS));
    [|done].
  intros s idx qa Hs u v rel. rewrite build_relations_unit_eq. simpl.
  unfold graph_of at 1. simpl. unfold weak_pass.
  intros [Hold|[_ ->]]%weak_pass_new.
  - rewrite relation_pass_flat in Hold.
    apply add_relations_inv in Hold as [Hold|(t1 & t2 & Hin & _)]; [by apply (Hs u v)|].
    apply list_elem_of_bind in Hin as (sent & Hin & _).
    by apply relation_label_in_table in Hin.
  - apply elem_of_app. right. by left.
Qed.

Lemma relation_labels_vocabulary_witness :
  "uses" ∈ ["is_a"; "regulates"; "uses"; "based_on"; "part_of"; "co_occurs"].
Proof.
  apply (relation_labels_vocabulary manual_synonyms Scenario.users_nlp
           Scenario.no_terms Scenario.set_order [Scenario.users_unit]
           "Siemens" "Bosch" "uses").
  vm_compute. reflexivity.
Defined.

(** ** Loading the question and answer pairs *)

Section LoadFacts.

Lemma range_by_two_lookup (n k : nat) :
  range_by_two n !! k = if decide (2 * k < n) then Some (2 * k) else None.
Proof.
  unfold range_by_two. rewrite list_lookup_fmap.
  pose proof (Nat.div2_odd (S n)) as Hdiv.
  assert (Nat.b2n (Nat.odd (S n)) ≤ 1) by (destruct (Nat.odd _); simpl; lia).
  case_decide.
  - rewrite lookup_seq_lt by lia. done.
  - rewrite lookup_seq_ge by lia. done.
Qed.

Lemma range_by_two_snoc (n : nat) :
  range_by_two (S (S n)) = (range_by_two n ++ [2 * Nat.div2 (S n)])%list.
Proof.
  unfold range_by_two. change (Nat.div2 (S (S (S n)))) with (S (Nat.div2 (S n))).
  by rewrite seq_S, fmap_app.
Qed.

(** The pairs of the unlabelled loop, read by position. *)
Lemma pair_up_loop (paras : list string) (m : nat) :
  2 * m ≤ S (length paras) →
  ∀ k, foldl (pair_up_step paras) [] ((λ k : nat, 2 * k) <$> seq 0 m) !! k
       = if decide (k < m) then
           match paras !! (2 * k), paras !! (2 * k + 1) with
           | Some q, Some a => Some (q, a)
           | _, _ => None
           end
         else None.
Proof.
  induction m as [|m IH]; intros Hm k.
  - by rewrite decide_False by lia.
  - rewrite seq_S, fmap_app. change ((λ k : nat, 2 * k) <$> [0 + m]) with [2 * m].
    rewrite foldl_snoc. specialize (IH ltac:(lia)). unfold pair_up_step at 1.
    destruct (decide (2 * m + 1 < length paras)) as [Hlt|Hge].
    + destruct (lookup_lt_is_Some_2 paras (2 * m) ltac:(lia)) as [q Hq].
      destruct (lookup_lt_is_Some_2 paras (2 * m + 1) ltac:(lia)) as [a Ha].
      rewrite Hq, Ha.
      assert (length (foldl (pair_up_step paras) []
                        ((λ k : nat, 2 * k) <$> seq 0 m)) = m) as Hlen.
      { apply Nat.le_antisymm.
        - apply Nat.nlt_ge. intros Hbig. apply lookup_lt_is_Some_2 in Hbig as [x Hx].
          rewrite IH in Hx. by rewrite decide_False in Hx by lia.
        - destruct m as [|m']; [lia|]. apply lookup_lt_is_Some_1.
          rewrite IH, decide_True by lia.
          destruct (lookup_lt_is_Some_2 paras (2 * m') ltac:(lia)) as [q' ->].
          destruct (lookup_lt_is_Some_2 paras (2 * m' + 1) ltac:(lia)) as [a' ->].
          done. }
      destruct (decide (k < m)) as [Hk|Hk].
      * rewrite lookup_app_l by lia. rewrite IH, decide_True by lia.
        by rewrite decide_True by lia.
      * destruct (decide (k = m)) as [->|Hne].
        -- rewrite lookup_app_r by lia. rewrite Hlen, Nat.sub_diag. simpl.
           rewrite decide_True by lia.
           replace (m + (m + 0)) with (2 * m) by lia. by rewrite Hq, Ha.
        -- rewrite lookup_ge_None_2 by (rewrite length_app, Hlen; cbn [length]; lia).
           by rewrite decide_False by lia.
    + rewrite IH. destruct (decide (k < m)) as [Hk|Hk].
      * by rewrite decide_True by lia.
      * destruct (decide (k < S m)) as [Hk'|Hk']; [|done].
        assert (k = m) as -> by lia.
        rewrite (lookup_ge_None_2 paras (2 * m + 1)) by lia.
        by destruct (paras !! _).
Qed.

Lemma pair_up_lookup (paras : list string) (k : nat) :
  pair_up paras !! k
  = match paras !! (2 * k), paras !! (2 * k + 1) with
    | Some q, Some a => Some (q, a)
    | _, _ => None
    end.
Proof.
  pose proof (Nat.div2_odd (S (length paras))) as Hdiv.
  assert (Nat.b2n (Nat.odd (S (length paras))) ≤ 1)
    by (destruct (Nat.odd _); simpl; lia).
  unfold pair_up, range_by_two. rewrite pair_up_loop by lia.
  case_decide as Hk; [done|].
  rewrite (lookup_ge_None_2 paras (2 * k + 1)) by lia. by destruct (paras !! _).
Qed.

Lemma stripped_paragraphs_clean (texts : list string) (p : string) :
  p ∈ stripped_paragraphs texts → p ≠ "" ∧ PyStr.strip p = p.
Proof.
  unfold stripped_paragraphs.
  intros (t & -> & [Ht _]%list_elem_of_filter)%list_elem_of_fmap.
  split; [done|apply PyStrFacts.strip_idemp].
Qed.

Lemma question_not_answer (t : string) :
  is_question t = true → is_answer t = false.
Proof.
  unfold is_question, is_answer. destruct (PyStr.lower t) as [|c s]; [done|].
  cbn [PyStr.startswith].
  destruct (decide ("q"%char = c)) as [<-|Hq]; [|done].
  intros _. rewrite !decide_False by done. done.
Qed.

Lemma question_not_empty (t : string) : is_question t = true → t ≠ "".
Proof. by intros Hq ->. Qed.

Lemma snoc_split {A} (ps l1 l2 : list A) (t x : A) :
  (ps ++ [t] = l1 ++ x :: l2)%list →
  (l2 = [] ∧ ps = l1 ∧ x = t) ∨ ∃ l2', l2 = (l2' ++ [t])%list ∧ ps = (l1 ++ x :: l2')%list.
Proof.
  destruct l2 as [|y l2 _] using rev_ind; intros Heq.
  - left. apply app_inj_tail in Heq as [-> ->]. done.
  - right. exists l2. rewrite app_comm_cons, app_assoc in Heq.
    apply app_inj_tail in Heq as [-> ->]. done.
Qed.

(** What the labelled loop holds after the paragraphs [ps]: the pairs made
    so far, and the question waiting for its answer. *)
Lemma labelled_loop (ps : list string) :
  let st := foldl labelled_step
              {| current_q := None; current_a := None; qa_pairs := [] |} ps in
  (∀ q a, (q, a) ∈ qa_pairs st ↔
     ∃ l1 l2 l3, ps = (l1 ++ q :: l2 ++ a :: l3)%list ∧ is_question q = true
                 ∧ is_answer a = true ∧ Forall unlabelled l2)
  ∧ (∀ q, current_q st = Some q ↔
       ∃ l1 l2, ps = (l1 ++ q :: l2)%list ∧ is_question q = true
                ∧ Forall unlabelled l2).
Proof.
  induction ps as [|t ps IH] using rev_ind; cbn zeta.
  - split.
    + intros q a. split; [by intros ?%elem_of_nil|].
      intros (l1 & l2 & l3 & Heq & _). by destruct l1.
    + intros q. split; [done|]. intros (l1 & l2 & Heq & _). by destruct l1.
  - rewrite foldl_snoc. cbn zeta in IH. destruct IH as [IHp IHq].
    set (st := foldl labelled_step _ ps) in *.
    unfold labelled_step.
    destruct (is_question t) eqn:Hqt; [|destruct (is_answer t) eqn:Hat].
    + pose proof (question_not_answer t Hqt) as Hat. split; cbn.
      * intros q a. rewrite IHp. split.
        -- intros (l1 & l2 & l3 & -> & Hq & Ha & Hl2).
           exists l1, l2, (l3 ++ [t])%list. by rewrite <-!app_assoc, <-!app_comm_cons, <-app_assoc.
        -- intros (l1 & l2 & l3 & Heq & Hq & Ha & Hl2).
           rewrite (app_comm_cons l2), app_assoc in Heq.
           apply snoc_split in Heq as [(_ & _ & ->)|(l3' & -> & ->)]; [congruence|].
           exists l1, l2, l3'. by rewrite <-app_assoc.
      * intros q. split.
        -- intros [= <-]. by exists ps, [].
        -- intros (l1 & l2 & Heq & Hq & Hl2).
           apply snoc_split in Heq as [(_ & _ & ->)|(l2' & -> & ->)]; [done|].
           apply Forall_app in Hl2 as [_ [[Hc _] _]%Forall_cons]. congruence.
    + assert (∀ l1 q l2, (ps ++ [t] = l1 ++ q :: l2)%list → is_question q = true
                → Forall unlabelled l2 → False) as Hnone.
      { intros l1 q l2 Heq Hq Hl2.
        apply snoc_split in Heq as [(_ & _ & ->)|(l2' & -> & ->)]; [congruence|].
        apply Forall_app in Hl2 as [_ [[_ Hc] _]%Forall_cons]. congruence. }
      destruct (current_q st) as [q0|] eqn:Hcur.
      * destruct (proj1 (IHq q0) eq_refl) as (l1 & l2 & Hps & Hq0 & Hl2).
        rewrite decide_True by by apply question_not_empty. split; cbn.
        -- intros q a. rewrite elem_of_app, list_elem_of_singleton, IHp. split.
           ++ intros [(k1 & k2 & k3 & -> & Hq & Ha & Hk2)|[= -> ->]].
              ** exists k1, k2, (k3 ++ [t])%list.
                 by rewrite <-!app_assoc, <-!app_comm_cons, <-app_assoc.
              ** exists l1, l2, []. by rewrite Hps, <-app_assoc.
           ++ intros (k1 & k2 & k3 & Heq & Hq & Ha & Hk2).
              rewrite (app_comm_cons k2), app_assoc in Heq.
              apply snoc_split in Heq as [(_ & Hps' & ->)|(k3' & -> & Hps')].
              ** right. assert (Some q0 = Some q) as [= ->] by (apply IHq; eauto).
                 done.
              ** left. exists k1, k2, k3'. by rewrite <-app_assoc in Hps'.
        -- intros q. split; [done|]. intros (k1 & k2 & Heq & Hq & Hk2).
           destruct (Hnone k1 q k2 Heq Hq Hk2).
      * split; cbn.
        -- intros q a. rewrite IHp. split.
           ++ intros (k1 & k2 & k3 & -> & Hq & Ha & Hk2).
              exists k1, k2, (k3 ++ [t])%list.
              by rewrite <-!app_assoc, <-!app_comm_cons, <-app_assoc.
           ++ intros (k1 & k2 & k3 & Heq & Hq & Ha & Hk2).
              rewrite (app_comm_cons k2), app_assoc in Heq.
              apply snoc_split in Heq as [(_ & Hps' & ->)|(k3' & -> & Hps')].
              ** assert (None = Some q) as Hc by (apply IHq; eauto). done.
              ** exists k1, k2, k3'. by rewrite <-app_assoc in Hps'.
        -- intros q. split; [done|]. intros (k1 & k2 & Heq & Hq & Hk2).
           destruct (Hnone k1 q k2 Heq Hq Hk2).
    + split.
      * intros q a. rewrite IHp. split.
        -- intros (k1 & k2 & k3 & -> & Hq & Ha & Hk2).
           exists k1, k2, (k3 ++ [t])%list.
           by rewrite <-!app_assoc, <-!app_comm_cons, <-app_assoc.
        -- intros (k1 & k2 & k3 & Heq & Hq & Ha & Hk2).
           rewrite (app_comm_cons k2), app_assoc in Heq.
           apply snoc_split in Heq as [(_ & _ & ->)|(k3' & -> & Hps')]; [congruence|].
           exists k1, k2, k3'. by rewrite <-app_assoc in Hps'.
      * intros q. rewrite IHq. split.
        -- intros (k1 & k2 & -> & Hq & Hk2). exists k1, (k2 ++ [t])%list.
           rewrite <-app_assoc, <-app_comm_cons. split_and!; [done..|].
           apply Forall_app. split; [done|]. by apply Forall_singleton.
        -- intros (k1 & k2 & Heq & Hq & Hk2).
           apply snoc_split in Heq as [(_ & _ & ->)|(k2' & -> & ->)]; [congruence|].
           apply Forall_app in Hk2 as [Hk2 _]. eauto.
Qed.

End LoadFacts.

(** X12. Without question labels, [load_qa_from_docx] pairs the non-empty
    stripped paragraphs two by two in order: the pair at position [k] is
    made of the paragraphs at positions [2k] and [2k+1], and a last
    paragraph without a partner is dropped. *)
Theorem load_qa_pairs_up (texts : list string) (k : nat) :
  let paras := stripped_paragraphs texts in
  existsb is_question paras = false →
  load_qa_from_docx texts !! k
  = match paras !! (2 * k), paras !! (2 * k + 1) with
    | Some q, Some a => Some (q, a)
    | _, _ => None
    end.
Proof.
  intros paras Hlabels. unfold load_qa_from_docx. fold paras. rewrite Hlabels.
  apply pair_up_lookup.
Qed.

Lemma load_qa_pairs_up_witness :
  load_qa_from_docx ["What is GDPR?"; "  "; " A privacy law. "; "Left over"] !! 0
  = Some ("What is GDPR?", "A privacy law.")
  ∧ load_qa_from_docx ["What is GDPR?"; "  "; " A privacy law. "; "Left over"] !! 1
    = None.
Proof.
  split.
  - rewrite (load_qa_pairs_up
               ["What is GDPR?"; "  "; " A privacy law. "; "Left over"] 0).
    + vm_compute. reflexivity.
    + vm_compute. reflexivity.
  - rewrite (load_qa_pairs_up
               ["What is GDPR?"; "  "; " A privacy law. "; "Left over"] 1).
    + vm_compute. reflexivity.
    + vm_compute. reflexivity.
Defined.

(** X13. When some paragraph is labelled as a question, [load_qa_from_docx]
    returns the pair [(q, a)] exactly when [q] is a question paragraph, [a]
    is an answer paragraph after it, and every paragraph between the two
    carries no label: a question is paired with the first answer that
    follows it, a question followed by another question is dropped, and so
    is an answer that no question waits for. *)
Theorem load_qa_labelled (texts : list string) (q a : string) :
  let paras := stripped_paragraphs texts in
  existsb is_question paras = true →
  (q, a) ∈ load_qa_from_docx texts ↔
  ∃ l1 l2 l3, paras = (l1 ++ q :: l2 ++ a :: l3)%list
              ∧ is_question q = true ∧ is_answer a = true
              ∧ Forall unlabelled l2.
Proof.
  intros paras Hlabels. unfold load_qa_from_docx. fold paras. rewrite Hlabels.
  apply (labelled_loop paras).
Qed.

Lemma load_qa_labelled_witness :
  ("Question 2: What is NIS2?", "Answer: A directive.")
  ∈ load_qa_from_docx
      ["Q: What is GDPR?"; " Question 2: What is NIS2?"; ""; "see below ";
       "Answer: A directive."; "A: left over"].
Proof.
  apply (load_qa_labelled
           ["Q: What is GDPR?"; " Question 2: What is NIS2?"; ""; "see below ";
            "Answer: A directive."; "A: left over"]
           "Question 2: What is NIS2?" "Answer: A directive.").
  - vm_compute. reflexivity.
  - exists ["Q: What is GDPR?"], ["see below"], ["A: left over"].
    split; [vm_compute; reflexivity|].
    split; [vm_compute; reflexivity|].
    split; [vm_compute; reflexivity|].
    apply Forall_cons. split; [|apply Forall_nil; exact I].
    split; vm_compute; reflexivity.
Defined.

(** ** The entities of one text *)

Section ExtractFacts.

Variable nlp : nat → string → Doc.
Variable findall : string → list string.
Variable list_of_set : list Span → list Span.

(** The loop over the matches of the technology pattern: match [k] is
    parsed by the call numbered [first + k], and the first entity of that
    parse, if any, joins the entities. *)
Lemma extract_loop (first : nat) (allowed : list Span) (matches : list string) :
  let st := foldl (λ (st : list Span * nat) match_,
                     let match_doc := nlp st.2 (PyStr.strip match_) in
                     (match ents match_doc with
                      | first :: _ => (st.1 ++ [first])%list
                      | [] => st.1
                      end, S st.2))
                  (allowed, first) matches in
  st.2 = first + length matches
  ∧ ∀ ent, ent ∈ st.1 ↔
      ent ∈ allowed
      ∨ ∃ k match_, matches !! k = Some match_
          ∧ ents (nlp (first + k) (PyStr.strip match_)) !! 0 = Some ent.
Proof.
  induction matches as [|m matches IH] using rev_ind; cbn zeta.
  - split; [simpl; lia|]. intros ent. split; [by left|].
    by intros [?|(k & m & ? & _)].
  - rewrite foldl_snoc. cbn zeta in IH. destruct IH as [IHn IHe].
    set (st := foldl _ _ matches) in *. cbn [fst snd].
    split; [rewrite length_app; simpl; lia|]. intros ent.
    assert (ent ∈ match ents (nlp st.2 (PyStr.strip m)) with
                  | first :: _ => (st.1 ++ [first])%list
                  | [] => st.1
                  end
            ↔ ent ∈ st.1 ∨ ents (nlp st.2 (PyStr.strip m)) !! 0 = Some ent) as ->.
    { destruct (ents (nlp st.2 (PyStr.strip m))) as [|e es]; simpl.
      - split; [by left|]. by intros [?|?].
      - rewrite elem_of_app, list_elem_of_singleton.
        split; (intros [?|?]; [by left|right; congruence]). }
    rewrite IHe, IHn. split.
    + intros [[Hin|(k & m' & Hk & Hent)]|Hent]; [by left|right..].
      * exists k, m'. split; [|done]. by apply lookup_app_l_Some.
      * exists (length matches), m. split; [|done].
        by rewrite lookup_app_r, Nat.sub_diag by lia.
    + intros [Hin|(k & m' & Hk & Hent)]; [by left; left|].
      apply lookup_snoc_Some in Hk as [[Hlt Hk]|[-> ->]].
      * left. right. eauto.
      * by right.
Qed.

End ExtractFacts.

(** X14. The entities [extract_entities] returns for a text are the
    entities of its parse with one of the six allowed labels, and, for
    every match of the technology pattern, the first entity of the parse of
    the matched term alone; that one is taken whatever its label is.
    Holds for any order in which the set is listed. *)
Theorem extract_entities_members (nlp : nat → string → Doc)
    (findall : string → list string) (list_of_set : list Span → list Span)
    (calls : nat) (text_block : string) (ent : Span) :
  (∀ l x, x ∈ list_of_set l ↔ x ∈ l) →
  ent ∈ (extract_entities nlp findall list_of_set calls text_block).1 ↔
    (ent ∈ ents (nlp calls text_block) ∧ label_ ent ∈ ALLOWED_LABELS)
    ∨ ∃ k match_, findall text_block !! k = Some match_
        ∧ ents (nlp (S calls + k) (PyStr.strip match_)) !! 0 = Some ent.
Proof.
  intros Hset. unfold extract_entities.
  pose proof (extract_loop nlp (S calls)
                (filter (λ ent, label_ ent ∈ ALLOWED_LABELS)
                        (ents (nlp calls text_block)))
                (findall text_block)) as Hloop.
  cbn zeta in Hloop. destruct (foldl _ _ (findall text_block)) as [added n].
  destruct Hloop as [_ Hadded]. cbn [fst snd] in *.
  rewrite Hset, Hadded, list_elem_of_filter. tauto.
Qed.

Lemma extract_entities_members_witness :
  Scenario.terms_ai 1
  ∈ (extract_entities Scenario.terms_nlp Scenario.terms_findall
       Scenario.set_order 0 (text_block_of Scenario.terms_unit)).1.
Proof.
  apply (extract_entities_members Scenario.terms_nlp Scenario.terms_findall
           Scenario.set_order 0 (text_block_of Scenario.terms_unit)
           (Scenario.terms_ai 1)).
  - intros l x. apply elem_of_remove_dups.
  - right. exists 0, "AI". split; vm_compute; reflexivity.
Defined.

(** ** The synonym map *)

Lemma foldl_pointwise {A B} (f g : A → B → A) (l : list B) (a : A) :
  (∀ a b, f a b = g a b) → foldl f a l = foldl g a l.
Proof.
  intros Hfg. revert a. induction l as [|b l IH]; intros a; [done|].
  cbn [foldl]. by rewrite Hfg, IH.
Qed.

Lemma add_pairs_snoc (m : gmap string string) (l : list (string * string))
    (pair : string * string) :
  add_pairs m (l ++ [pair]) = add_synonym pair.1 pair.2 (add_pairs m l).
Proof. unfold add_pairs. by rewrite foldl_snoc. Qed.

Lemma add_synonym_other (full_form acronym k : string) (m : gmap string string) :
  ¬ writes_key k (full_form, acronym) → add_synonym full_form acronym m !! k = m !! k.
Proof.
  unfold writes_key, add_synonym. cbn. intros Hk.
  assert (k ≠ PyStr.lower full_form ∧ k ≠ PyStr.lower acronym) as [H1 H2] by tauto.
  by rewrite !lookup_insert_ne by done.
Qed.

Lemma add_synonym_written (full_form acronym k : string) (m : gmap string string) :
  writes_key k (full_form, acronym) → add_synonym full_form acronym m !! k = Some acronym.
Proof.
  unfold writes_key, add_synonym. cbn. intros Hk.
  destruct (decide (k = PyStr.lower acronym)) as [->|Hne].
  - by rewrite lookup_insert_eq.
  - rewrite lookup_insert_ne by done. destruct Hk as [->|?]; [|done].
    by rewrite lookup_insert_eq.
Qed.

Lemma add_pairs_untouched (m : gmap string string) (l : list (string * string))
    (k : string) :
  Forall (λ pair, ¬ writes_key k pair) l → add_pairs m l !! k = m !! k.
Proof.
  induction l as [|[f a] l IH] using rev_ind; intros Hl; [done|].
  apply Forall_app in Hl as [Hl [Hfa _]%Forall_cons].
  rewrite add_pairs_snoc, add_synonym_other by done. by apply IH.
Qed.

Lemma add_pairs_last_write (m : gmap string string) (l1 l2 : list (string * string))
    (full_form acronym k : string) :
  writes_key k (full_form, acronym) →
  Forall (λ pair, ¬ writes_key k pair) l2 →
  add_pairs m (l1 ++ (full_form, acronym) :: l2) !! k = Some acronym.
Proof.
  intros Hk Hl2. unfold add_pairs. rewrite foldl_app. cbn [foldl].
  fold (add_pairs (add_synonym full_form acronym (add_pairs m l1)) l2).
  rewrite add_pairs_untouched by done. by apply add_synonym_written.
Qed.

Section SynonymFacts.

Variable findall_full_acronym : string → list (string * string).
Variable findall_acronym_full : string → list (string * string).

Local Abbreviation build := (build_synonym_map findall_full_acronym
                               findall_acronym_full).
Local Abbreviation pairs := (synonym_pairs findall_full_acronym
                               findall_acronym_full).

Lemma synonym_paragraph_pairs (m : gmap string string) (para_text : string) :
  synonym_paragraph findall_full_acronym findall_acronym_full m para_text
  = add_pairs m (pairs [para_text]).
Proof.
  unfold synonym_paragraph, synonym_pairs, add_pairs. cbn zeta.
  rewrite bind_cons, app_nil_r.
  destruct (decide (PyStr.strip para_text = "")) as [_|_]; [done|].
  rewrite foldl_app, foldl_fmap.
  rewrite (foldl_pointwise _ (λ m pair, add_synonym pair.1 pair.2 m)
             (findall_full_acronym _)) by (by intros ? [??]).
  apply foldl_pointwise. by intros ? [??].
Qed.

Lemma build_synonym_map_pairs (texts : list string) :
  build texts = add_pairs manual_synonyms (pairs texts).
Proof.
  unfold build_synonym_map. generalize manual_synonyms.
  induction texts as [|t texts IH]; intros m; [done|].
  cbn [foldl]. rewrite IH, synonym_paragraph_pairs.
  unfold add_pairs, synonym_pairs. by rewrite !bind_cons, !foldl_app.
Qed.

End SynonymFacts.

(** X15. In the map [build_synonym_map] returns, a key that some pair
    found in the document writes (the lower-cased full form or the
    lower-cased acronym) holds the acronym of the last such pair, in the
    order of the paragraphs and, inside a paragraph, first the matches of
    [Full form (ACRONYM)], then those of [ACRONYM (Full form)]. *)
Theorem synonym_map_last_write
    (findall_full_acronym findall_acronym_full : string → list (string * string))
    (texts : list string) (l1 l2 : list (string * string))
    (full_form acronym k : string) :
  synonym_pairs findall_full_acronym findall_acronym_full texts
    = (l1 ++ (full_form, acronym) :: l2)%list →
  writes_key k (full_form, acronym) →
  Forall (λ pair, ¬ writes_key k pair) l2 →
  build_synonym_map findall_full_acronym findall_acronym_full texts !! k
    = Some acronym.
Proof.
  intros Hpairs Hk Hl2. rewrite build_synonym_map_pairs, Hpairs.
  by apply add_pairs_last_write.
Qed.

Lemma synonym_map_last_write_witness :
  build_synonym_map Scenario.acronyms_full_acronym Scenario.acronyms_acronym_full
    Scenario.acronyms_texts !! "gdpr" = Some "GDPR"
  ∧ build_synonym_map Scenario.acronyms_full_acronym
      Scenario.acronyms_acronym_full
      Scenario.acronyms_texts !! "the general data protection regulation "
    = Some "GDPR".
Proof.
  split.
  - apply (synonym_map_last_write Scenario.acronyms_full_acronym
             Scenario.acronyms_acronym_full Scenario.acronyms_texts
             [("The General Data Protection Regulation ", "GDPR")] []
             "General Data Protection Regulation" "GDPR" "gdpr").
    + vm_compute. reflexivity.
    + right. vm_compute. reflexivity.
    + apply Forall_nil. exact I.
  - apply (synonym_map_last_write Scenario.acronyms_full_acronym
             Scenario.acronyms_acronym_full Scenario.acronyms_texts
             [] [("General Data Protection Regulation", "GDPR")]
             "The General Data Protection Regulation " "GDPR"
             "the general data protection regulation ").
    + vm_compute. reflexivity.
    + left. vm_compute. reflexivity.
    + apply Forall_cons. split; [|apply Forall_nil; exact I].
      intros [H|H]; vm_compute in H; discriminate H.
Defined.

(** X16. [build_synonym_map] leaves alone every key that no pair found in
    the document writes: under such a key the result holds what
    [manual_synonyms] holds, or nothing. *)
Theorem synonym_map_keeps_manual
    (findall_full_acronym findall_acronym_full : string → list (string * string))
    (texts : list string) (k : string) :
  Forall (λ pair, ¬ writes_key k pair)
         (synonym_pairs findall_full_acronym findall_acronym_full texts) →
  build_synonym_map findall_full_acronym findall_acronym_full texts !! k
    = manual_synonyms !! k.
Proof.
  intros Hl. rewrite build_synonym_map_pairs. by apply add_pairs_untouched.
Qed.

Lemma synonym_map_keeps_manual_witness :
  build_synonym_map Scenario.acronyms_full_acronym Scenario.acronyms_acronym_full
    Scenario.acronyms_texts !! "usa" = manual_synonyms !! "usa"
  ∧ manual_synonyms !! "usa" = Some "USA".
Proof.
  split; [|vm_compute; reflexivity].
  apply (synonym_map_keeps_manual Scenario.acronyms_full_acronym
           Scenario.acronyms_acronym_full Scenario.acronyms_texts "usa").
  apply Forall_cons. split; [intros [H|H]; vm_compute in H; discriminate H|].
  apply Forall_cons. split; [intros [H|H]; vm_compute in H; discriminate H|].
  apply Forall_nil. exact I.
Defined.

(** X17. With the map of [build_synonym_map], [normalize_entity] turns an
    entity that spells an acronym of the document, in any case and with
    whitespace around it, into the acronym as the last pair that writes
    its key has it. *)
Theorem normalize_resolves_acronym
    (findall_full_acronym findall_acronym_full : string → list (string * string))
    (texts : list string) (l1 l2 : list (string * string))
    (full_form acronym ent_text : string) :
  synonym_pairs findall_full_acronym findall_acronym_full texts
    = (l1 ++ (full_form, acronym) :: l2)%list →
  Forall (λ pair, ¬ writes_key (PyStr.lower acronym) pair) l2 →
  PyStr.lower (PyStr.strip ent_text) = PyStr.lower acronym →
  PyStr.startswith (PyStr.lower acronym) "the " = false →
  normalize_entity
    (build_synonym_map findall_full_acronym findall_acronym_full texts) ent_text
  = acronym.
Proof.
  intros Hpairs Hl2 Hlower Hthe. unfold normalize_entity. cbn zeta.
  rewrite Hlower, Hthe, Hlower, build_synonym_map_pairs, Hpairs.
  rewrite (add_pairs_last_write manual_synonyms l1 l2 full_form acronym
             (PyStr.lower acronym)) by (done || by right).
  done.
Qed.

Lemma normalize_resolves_acronym_witness :
  normalize_entity
    (build_synonym_map Scenario.acronyms_full_acronym
       Scenario.acronyms_acronym_full Scenario.acronyms_texts) " Gdpr "
  = "GDPR".
Proof.
  apply (normalize_resolves_acronym Scenario.acronyms_full_acronym
           Scenario.acronyms_acronym_full Scenario.acronyms_texts
           [("The General Data Protection Regulation ", "GDPR")] []
           "General Data Protection Regulation" "GDPR" " Gdpr ").
  - vm_compute. reflexivity.
  - apply Forall_nil. exact I.
  - vm_compute. reflexivity.
  - vm_compute. reflexivity.
Defined.
